(** * Interval binning (UCSC scheme): a shallow embedding of binning.go

    The Go package computes bin numbers for half-open integer intervals.
    Go's [int] is modelled as a 64-bit two's complement integer carried by
    [Z], every arithmetic operation wrapping explicitly; [uint] shift amounts
    are carried by non-negative [Z].  Run-time panics (index out of range,
    negative slice length, the explicit [panic] calls) are results distinct
    from the errors the functions return. *)

From Stdlib Require Import ZArith List Bool Lia.
Import ListNotations.
Local Open Scope Z_scope.

(** ** Machine integers *)

Module GoInt.

Definition int_min : Z := - 2 ^ 63.
Definition int_max : Z := 2 ^ 63 - 1.

(** Values an [int] variable can hold. *)
Definition in_int (z : Z) : Prop := int_min <= z <= int_max.

(** Two's complement wrap-around of a mathematical integer. *)
Definition wrap (z : Z) : Z := (z + 2 ^ 63) mod 2 ^ 64 - 2 ^ 63.

(** Wrap-around of [uint] values. *)
Definition uwrap (z : Z) : Z := z mod 2 ^ 64.

Definition add (x y : Z) : Z := wrap (x + y).
Definition sub (x y : Z) : Z := wrap (x - y).
Definition uadd (x y : Z) : Z := uwrap (x + y).

(** [x >> n] on a signed operand is an arithmetic shift; the count is a
    [uint] and may exceed the width, the result then being 0 or -1. *)
Definition shr (x n : Z) : Z := Z.shiftr x n.

(** [x << n]: the bits shifted out are lost. *)
Definition shl (x n : Z) : Z := wrap (Z.shiftl x n).

End GoInt.
Import GoInt.

(** ** Results of a call *)

Inductive error : Type :=
| RangeError (start stop maxPosition : Z)
    (* "interval out of range: %d-%d (maximum position is %d)" *)
| InvalidBinError (bin maxBin : Z).
    (* "not a valid bin number: %d (must be >= 0 and <= %d)" *)

Inductive panic : Type :=
| FallThrough         (* panic("unexpected loop fall-through") *)
| IndexOutOfRange     (* slice index out of range *)
| LenOutOfRange.      (* makeslice: len out of range *)

Inductive outcome (A : Type) : Type :=
| Ok (a : A)
| Err (e : error)
| Panic (p : panic)
| OutOfFuel.

Arguments Ok {A} a.
Arguments Err {A} e.
Arguments Panic {A} p.
Arguments OutOfFuel {A}.

Definition bind {A B : Type} (m : outcome A) (k : A -> outcome B) : outcome B :=
  match m with
  | Ok a => k a
  | Err e => Err e
  | Panic p => Panic p
  | OutOfFuel => OutOfFuel
  end.

Notation "x <- m ;; k" := (bind m (fun x => k))
  (at level 61, m at next level, right associativity).
Notation "' p <- m ;; k" := (bind m (fun p => k))
  (at level 61, p pattern, m at next level, right associativity).

(** Slice indexing [s[i]], panicking outside [0 <= i < len(s)]. *)
Definition index (s : list Z) (i : Z) : outcome Z :=
  if i <? 0 then Panic IndexOutOfRange
  else match nth_error s (Z.to_nat i) with
       | Some v => Ok v
       | None => Panic IndexOutOfRange
       end.

(** Slice store [s[i] = v]. *)
Fixpoint set_nth (s : list Z) (n : nat) (v : Z) : option (list Z) :=
  match s, n with
  | [], _ => None
  | _ :: t, O => Some (v :: t)
  | h :: t, S n' => option_map (cons h) (set_nth t n' v)
  end.

Definition store (s : list Z) (i : Z) (v : Z) : outcome (list Z) :=
  if i <? 0 then Panic IndexOutOfRange
  else match set_nth s (Z.to_nat i) v with
       | Some s' => Ok s'
       | None => Panic IndexOutOfRange
       end.

Definition len (s : list Z) : Z := Z.of_nat (length s).

(** ** The binning scheme *)

Record Binning : Type := mkBinning {
  MaxPosition : Z;
  MaxBin : Z;
  binOffsets : list Z;
  shiftFirst : Z;
  shiftNext : Z
}.

(** The variables captured by the closure that [ranges] returns; [startBin],
    [stopBin] and [level] are updated by each call of the closure. *)
Record closure : Type := mkClosure {
  startBin : Z;
  stopBin : Z;
  maxLevel : Z;
  level : Z
}.

(** The guard at the head of [ranges]. *)
Definition out_of_range (b : Binning) (start stop : Z) : bool :=
  (start <? 0) || (stop >? add (MaxPosition b) 1).

Definition ranges (b : Binning) (start stop : Z) : outcome closure :=
  if out_of_range b start stop
  then Err (RangeError start stop (MaxPosition b))
  else
    let stop := if stop <=? start then add start 1 else stop in
    Ok {| startBin := shr start (shiftFirst b);
          stopBin := shr (sub stop 1) (shiftFirst b);
          maxLevel := sub (len (binOffsets b)) 1;
          level := 0 |}.

(** One call of the closure: the triple it returns ([None] for [ok = false])
    and the captured variables afterwards. *)
Definition nextRange (b : Binning) (c : closure)
  : outcome (option (Z * Z) * closure) :=
  if level c >? maxLevel c then Ok (None, c)
  else
    let c1 :=
      if level c >? 0
      then {| startBin := shr (startBin c) (shiftNext b);
              stopBin := shr (stopBin c) (shiftNext b);
              maxLevel := maxLevel c;
              level := level c |}
      else c in
    let c2 := {| startBin := startBin c1;
                 stopBin := stopBin c1;
                 maxLevel := maxLevel c1;
                 level := add (level c1) 1 |} in
    offset <- index (binOffsets b) (sub (level c2) 1) ;;
    Ok (Some (add offset (startBin c2), add offset (stopBin c2)), c2).

(** The [for] loop of [Assign]; [fuel] bounds the number of iterations. *)
Fixpoint Assign_loop (fuel : nat) (b : Binning) (c : closure) : outcome Z :=
  match fuel with
  | O => OutOfFuel
  | S fuel' =>
      '(r, c') <- nextRange b c ;;
      match r with
      | None => Panic FallThrough
      | Some (startBin, stopBin) =>
          if startBin =? stopBin then Ok startBin
          else Assign_loop fuel' b c'
      end
  end.

(** Iterations that exhaust any closure of the scheme: one per level and the
    last one that reports [ok = false]. *)
Definition level_fuel (b : Binning) : nat := S (length (binOffsets b)).

Definition Assign (b : Binning) (start stop : Z) : outcome Z :=
  nextRange_state <- ranges b start stop ;;
  Assign_loop (level_fuel b) b nextRange_state.

(** [make([]int, n)]: a zeroed slice, or a panic for a negative length. *)
Definition make (n : Z) : outcome (list Z) :=
  if n <? 0 then Panic LenOutOfRange else Ok (repeat 0 (Z.to_nat n)).

(** The inner loop of [Overlapping]:
    [for bin := startBin; bin <= stopBin; bin++ { tmp[bin-startBin] = bin }]. *)
Fixpoint fill_loop (fuel : nat) (startBin stopBin bin : Z) (tmp : list Z)
  : outcome (list Z) :=
  match fuel with
  | O => OutOfFuel
  | S fuel' =>
      if bin <=? stopBin
      then tmp' <- store tmp (sub bin startBin) bin ;;
           fill_loop fuel' startBin stopBin (add bin 1) tmp'
      else Ok tmp
  end.

(** The bins of one level: [tmp] after the inner loop.  A slice of [n]
    elements admits at most [n] stores at increasing indices, so [n + 1]
    evaluations of the loop condition end the loop or panic. *)
Definition level_bins (startBin stopBin : Z) : outcome (list Z) :=
  tmp <- make (add (sub stopBin startBin) 1) ;;
  fill_loop (S (length tmp)) startBin stopBin startBin tmp.

(** The outer loop of [Overlapping]. *)
Fixpoint Overlapping_loop (fuel : nat) (b : Binning) (c : closure)
    (bins : list Z) : outcome (list Z) :=
  match fuel with
  | O => OutOfFuel
  | S fuel' =>
      '(r, c') <- nextRange b c ;;
      match r with
      | None => Ok bins
      | Some (startBin, stopBin) =>
          tmp <- level_bins startBin stopBin ;;
          Overlapping_loop fuel' b c' (bins ++ tmp)
      end
  end.

Definition Overlapping (b : Binning) (start stop : Z) : outcome (list Z) :=
  nextRange_state <- ranges b start stop ;;
  Overlapping_loop (level_fuel b) b nextRange_state [].

(** [bins := overlapping[:0]] is a slice of length 0 over the backing array
    of [overlapping]: an [append] to it overwrites that array while the
    [range] loop still reads it.  [Shared n] is [bins] of length [n] on the
    shared array; [Fresh l] is [bins] after an [append] beyond the capacity
    moved it to an array of its own. *)
Inductive bins_slice : Type :=
| Shared (n : nat)
| Fresh (l : list Z).

(** [bins = append(bins, bin)], given the array [overlapping] lives in. *)
Definition append_bins (arr : list Z) (bins : bins_slice) (bin : Z)
  : list Z * bins_slice :=
  match bins with
  | Shared n =>
      match set_nth arr n bin with
      | Some arr' => (arr', Shared (S n))
      | None => (arr, Fresh (firstn n arr ++ [bin]))
      end
  | Fresh l => (arr, Fresh (l ++ [bin]))
  end.

(** [for _, bin := range overlapping { if keep(bin) { bins = append(bins, bin) } }]
    from index [i] on, for [todo] more elements; the element is read from the
    array as it is when the iteration starts. *)
Fixpoint filter_loop (keep : Z -> bool) (todo : nat) (i : nat)
    (arr : list Z) (bins : bins_slice) : outcome (list Z * bins_slice) :=
  match todo with
  | O => Ok (arr, bins)
  | S todo' =>
      bin <- index arr (Z.of_nat i) ;;
      let '(arr', bins') :=
        if keep bin then append_bins arr bins bin else (arr, bins) in
      filter_loop keep todo' (S i) arr' bins'
  end.

(** The elements of [bins]. *)
Definition bins_elements (arr : list Z) (bins : bins_slice) : list Z :=
  match bins with
  | Shared n => firstn n arr
  | Fresh l => l
  end.

Definition filter_in_place (keep : Z -> bool) (overlapping : list Z)
  : outcome (list Z) :=
  '(arr, bins) <- filter_loop keep (length overlapping) 0 overlapping (Shared 0) ;;
  Ok (bins_elements arr bins).

Definition Containing (b : Binning) (start stop : Z) : outcome (list Z) :=
  maxBin <- Assign b start stop ;;
  overlapping <- Overlapping b start stop ;;
  filter_in_place (fun bin => bin <=? maxBin) overlapping.

Definition Contained (b : Binning) (start stop : Z) : outcome (list Z) :=
  minBin <- Assign b start stop ;;
  overlapping <- Overlapping b start stop ;;
  filter_in_place (fun bin => bin >=? minBin) overlapping.

(** [Covered]: the scan over the level offsets. *)
Fixpoint Covered_loop (offsets : list Z) (shiftNext shift bin : Z)
  : outcome (Z * Z) :=
  match offsets with
  | [] => Panic FallThrough
  | offset :: rest =>
      if offset <=? bin
      then Ok (shl (sub bin offset) shift, shl (sub (add bin 1) offset) shift)
      else Covered_loop rest shiftNext (uadd shift shiftNext) bin
  end.

Definition Covered (b : Binning) (bin : Z) : outcome (Z * Z) :=
  if (bin <? 0) || (bin >? MaxBin b)
  then Err (InvalidBinError bin (MaxBin b))
  else Covered_loop (binOffsets b) (shiftNext b) (shiftFirst b) bin.

Definition NewBinning (maxPosition : Z) (binOffsets : list Z)
    (shiftFirst shiftNext : Z) : outcome Binning :=
  first <- index binOffsets 0 ;;
  Ok {| MaxPosition := maxPosition;
        MaxBin := add first (shr maxPosition shiftFirst);
        binOffsets := binOffsets;
        shiftFirst := shiftFirst;
        shiftNext := shiftNext |}.

Definition StandardBinning : outcome Binning :=
  NewBinning (2 ^ 29 - 1) [512 + 64 + 8 + 1; 64 + 8 + 1; 8 + 1; 1; 0] 17 3.

(** The value [StandardBinning] returns. *)
Definition standard : Binning :=
  {| MaxPosition := 536870911;
     MaxBin := 4680;
     binOffsets := [585; 73; 9; 1; 0];
     shiftFirst := 17;
     shiftNext := 3 |}.

(** The closure drained to its end, as a caller that keeps calling it until
    [ok = false] observes it: the pairs in the order they are yielded. *)
Fixpoint drain (fuel : nat) (b : Binning) (c : closure)
  : outcome (list (Z * Z)) :=
  match fuel with
  | O => OutOfFuel
  | S fuel' =>
      '(r, c') <- nextRange b c ;;
      match r with
      | None => Ok []
      | Some p => ps <- drain fuel' b c' ;; Ok (p :: ps)
      end
  end.

(** ** Reference definitions, in the words of the specification *)

(** The values of the fields fit their Go types. *)
Record well_typed (b : Binning) : Prop := {
  wt_MaxPosition : in_int (MaxPosition b);
  wt_MaxBin : in_int (MaxBin b);
  wt_binOffsets : Forall in_int (binOffsets b);
  wt_len : len (binOffsets b) <= int_max;
  wt_shiftFirst : 0 <= shiftFirst b < 2 ^ 64;
  wt_shiftNext : 0 <= shiftNext b < 2 ^ 64
}.

(** The interval after normalisation: [stop] becomes [start + 1] when
    [stop <= start]. *)
Definition norm_stop (start stop : Z) : Z :=
  if stop <=? start then start + 1 else stop.

(** Total shift of level [i]: [shiftFirst + i * shiftNext]. *)
Definition shift_at (b : Binning) (i : nat) : Z :=
  shiftFirst b + Z.of_nat i * shiftNext b.

(** The pair of level [i] for first position [s] and last position [e]. *)
Definition level_pair (b : Binning) (s e : Z) (i : nat) : Z * Z :=
  (add (nth i (binOffsets b) 0) (Z.shiftr s (shift_at b i)),
   add (nth i (binOffsets b) 0) (Z.shiftr e (shift_at b i))).

Definition level_pairs (b : Binning) (s e : Z) : list (Z * Z) :=
  map (level_pair b s e) (seq 0 (length (binOffsets b))).

(** The integers [x, x+1, ..., y]. *)
Definition Zrange (x y : Z) : list Z :=
  map (fun k => x + Z.of_nat k) (seq 0 (Z.to_nat (y - x + 1))).

(** The captured variables after [k] calls of the closure, for first position
    [s] and last position [e]: the bin indices have been shifted [k - 1]
    times by [shiftNext] (not at all before the second call). *)
Definition closure_at (b : Binning) (s e : Z) (k : nat) : closure :=
  {| startBin := Z.shiftr s (shift_at b (pred k));
     stopBin := Z.shiftr e (shift_at b (pred k));
     maxLevel := sub (len (binOffsets b)) 1;
     level := Z.of_nat k |}.

(** [Overlapping] on a given list of level pairs. *)
Fixpoint collect (ps : list (Z * Z)) (bins : list Z) : outcome (list Z) :=
  match ps with
  | [] => Ok bins
  | (x, y) :: rest => tmp <- level_bins x y ;; collect rest (bins ++ tmp)
  end.

(** [Assign] on a given list of level pairs. *)
Definition first_single (ps : list (Z * Z)) : outcome Z :=
  match find (fun p => fst p =? snd p) ps with
  | Some p => Ok (fst p)
  | None => Panic FallThrough
  end.

(** The integers [x, ..., x + j - 1]: what the inner loop of [Overlapping]
    has written after [j] iterations. *)
Definition upto (x : Z) (j : nat) : list Z :=
  map (fun k => x + Z.of_nat k) (seq 0 j).

(** A pair whose level bins the inner loop enumerates without overflow. *)
Definition good_pair (p : Z * Z) : Prop :=
  0 <= fst p <= snd p /\ snd p < int_max.

(** Checks the round trip [Assign (Covered bin) = bin] for one bin. *)
Definition round_trip (b : Binning) (bin : Z) : bool :=
  match Covered b bin with
  | Ok (c0, c1) =>
      match Assign b c0 c1 with
      | Ok bin' => bin' =? bin
      | _ => false
      end
  | _ => false
  end.

(** The call returned the error of the range check. *)
Definition range_error {A : Type} (o : outcome A) : Prop :=
  match o with
  | Err (RangeError _ _ _) => True
  | _ => False
  end.

(** The call returned the error of the bin check. *)
Definition invalid_bin_error {A : Type} (o : outcome A) : Prop :=
  match o with
  | Err (InvalidBinError _ _) => True
  | _ => False
  end.

(** The call returned no error value (it returned a result or panicked). *)
Definition no_error {A : Type} (o : outcome A) : Prop :=
  forall e, o <> Err e.

(** The levels of the standard scheme: offset, total shift, number of bins. *)
Definition standard_levels : list (Z * Z * Z) :=
  [(585, 17, 4096); (73, 20, 512); (9, 23, 64); (1, 26, 8); (0, 29, 1)].

(** The intervals [c0, c1) and [start, stop) have a position in common. *)
Definition shares_position (c0 c1 start stop : Z) : Prop :=
  exists p, c0 <= p < c1 /\ start <= p < stop.

(** The interval lies within the positions of the scheme. *)
Definition in_range (b : Binning) (start stop : Z) : Prop :=
  0 <= start <= MaxPosition b /\ stop <= MaxPosition b + 1.

(** The interval [c0, c1) encloses [start, stop). *)
Definition encloses (c0 c1 start stop : Z) : Prop :=
  c0 <= start /\ stop <= c1.

(** [a] is the bin of the finest level of the standard scheme on which the
    positions [s] and [e] fall into one bin. *)
Definition finest_common (s e a : Z) : Prop :=
  (Z.shiftr s 17 = Z.shiftr e 17 /\ a = 585 + Z.shiftr s 17)
  \/ (Z.shiftr s 17 <> Z.shiftr e 17 /\ Z.shiftr s 20 = Z.shiftr e 20
      /\ a = 73 + Z.shiftr s 20)
  \/ (Z.shiftr s 20 <> Z.shiftr e 20 /\ Z.shiftr s 23 = Z.shiftr e 23
      /\ a = 9 + Z.shiftr s 23)
  \/ (Z.shiftr s 23 <> Z.shiftr e 23 /\ Z.shiftr s 26 = Z.shiftr e 26
      /\ a = 1 + Z.shiftr s 26)
  \/ (Z.shiftr s 26 <> Z.shiftr e 26 /\ Z.shiftr s 29 = Z.shiftr e 29
      /\ a = 0 + Z.shiftr s 29).

(** [bin] lies on some level of the standard scheme between the bins of the
    positions [s] and [e]. *)
Definition between_levels (s e bin : Z) : Prop :=
  585 + Z.shiftr s 17 <= bin <= 585 + Z.shiftr e 17
  \/ 73 + Z.shiftr s 20 <= bin <= 73 + Z.shiftr e 20
  \/ 9 + Z.shiftr s 23 <= bin <= 9 + Z.shiftr e 23
  \/ 1 + Z.shiftr s 26 <= bin <= 1 + Z.shiftr e 26
  \/ 0 + Z.shiftr s 29 <= bin <= 0 + Z.shiftr e 29.

(** * Properties *)

Lemma StandardBinning_standard : StandardBinning = Ok standard.
Proof. reflexivity. Qed.

(** ** Machine arithmetic *)

Lemma wrap_small z : in_int z -> wrap z = z.
Proof.
  unfold in_int, int_min, int_max, wrap. intros H.
  rewrite Z.mod_small; lia.
Qed.

Lemma wrap_in_int z : in_int (wrap z).
Proof.
  unfold in_int, int_min, int_max, wrap.
  pose proof (Z.mod_pos_bound (z + 2 ^ 63) (2 ^ 64) ltac:(lia)). lia.
Qed.

Lemma wrap_add_l x y : wrap (wrap x + y) = wrap (x + y).
Proof.
  unfold wrap. f_equal.
  replace ((x + 2 ^ 63) mod 2 ^ 64 - 2 ^ 63 + y + 2 ^ 63)
    with ((x + 2 ^ 63) mod 2 ^ 64 + y) by lia.
  rewrite Zplus_mod_idemp_l. f_equal. lia.
Qed.

Lemma add_small x y : in_int (x + y) -> add x y = x + y.
Proof. apply wrap_small. Qed.

Lemma sub_small x y : in_int (x - y) -> sub x y = x - y.
Proof. apply wrap_small. Qed.

(** [x++] followed by [x--] is the identity, also across the wrap. *)
Lemma sub_add_cancel x : in_int x -> sub (add x 1) 1 = x.
Proof.
  intros H. unfold sub, add.
  replace (wrap (x + 1) - 1) with (wrap (x + 1) + (- 1)) by lia.
  rewrite wrap_add_l. replace (x + 1 + - 1) with x by lia.
  now apply wrap_small.
Qed.

Lemma in_int_nonneg z : 0 <= z <= int_max -> in_int z.
Proof. unfold in_int, int_min, int_max. lia. Qed.

Lemma shiftr_nonneg_le x n : 0 <= x -> 0 <= n -> 0 <= Z.shiftr x n <= x.
Proof.
  intros Hx Hn. rewrite Z.shiftr_div_pow2 by assumption.
  assert (0 < 2 ^ n) by (apply Z.pow_pos_nonneg; lia).
  split.
  - apply Z.div_pos; lia.
  - apply Z.div_le_upper_bound; nia.
Qed.

Lemma shiftr_mono x y n : 0 <= n -> x <= y -> Z.shiftr x n <= Z.shiftr y n.
Proof.
  intros Hn Hxy. rewrite !Z.shiftr_div_pow2 by assumption.
  apply Z.div_le_mono; [apply Z.pow_pos_nonneg; lia | assumption].
Qed.

(** ** Slices *)

Lemma index_nth s (i : nat) :
  (i < length s)%nat -> index s (Z.of_nat i) = Ok (nth i s 0).
Proof.
  intros Hi. unfold index.
  destruct (Z.ltb_spec (Z.of_nat i) 0); [lia|].
  rewrite Nat2Z.id.
  destruct (nth_error s i) eqn:E.
  - now rewrite (nth_error_nth _ _ _ E).
  - apply nth_error_None in E. lia.
Qed.

(** ** The walk over the levels *)

Section Walk.

Variable b : Binning.
Hypothesis Hwt : well_typed b.
Variables s e : Z.

Local Abbreviation n := (length (binOffsets b)).

Lemma maxLevel_closure_at k :
  maxLevel (closure_at b s e k) = Z.of_nat n - 1.
Proof.
  cbn. apply sub_small. pose proof (wt_len b Hwt).
  unfold in_int, int_min, int_max, len in *. lia.
Qed.

Lemma shift_at_succ k : shift_at b k + shiftNext b = shift_at b (S k).
Proof. unfold shift_at. lia. Qed.

Lemma shift_at_nonneg k : 0 <= shift_at b k.
Proof.
  unfold shift_at. pose proof (wt_shiftFirst b Hwt).
  pose proof (wt_shiftNext b Hwt). nia.
Qed.

(** A call below the last level yields the pair of that level. *)
Lemma nextRange_level k :
  (k < n)%nat ->
  nextRange b (closure_at b s e k)
  = Ok (Some (level_pair b s e k), closure_at b s e (S k)).
Proof.
  intros Hk. unfold nextRange.
  pose proof (maxLevel_closure_at 0) as Hml. cbn [closure_at maxLevel] in Hml.
  rewrite maxLevel_closure_at.
  assert (Hlen : Z.of_nat n <= int_max) by apply (wt_len b Hwt).
  assert (Hlvl : level (closure_at b s e k) = Z.of_nat k) by reflexivity.
  rewrite Hlvl.
  destruct (Z.gtb_spec (Z.of_nat k) (Z.of_nat n - 1)); [lia|].
  assert (Hadd : add (Z.of_nat k) 1 = Z.of_nat (S k)).
  { rewrite add_small; [lia|]. unfold in_int, int_min, int_max in *. lia. }
  assert (Hsub : sub (Z.of_nat (S k)) 1 = Z.of_nat k).
  { rewrite sub_small; [lia|]. unfold in_int, int_min, int_max in *. lia. }
  destruct (Z.gtb_spec (Z.of_nat k) 0) as [Hpos|Hzero]; cbn -[Z.of_nat];
    rewrite Hadd, Hsub, index_nth by exact Hk; cbn [bind].
  - destruct k as [|k']; [lia|]. cbn [pred].
    unfold shr. rewrite !Z.shiftr_shiftr by apply (wt_shiftNext b Hwt).
    rewrite shift_at_succ. unfold level_pair, closure_at. cbn [pred].
    now rewrite <- Hml.
  - assert (k = 0)%nat by lia. subst k. reflexivity.
Qed.

(** The call after the last level reports [ok = false]. *)
Lemma nextRange_end :
  nextRange b (closure_at b s e n) = Ok (None, closure_at b s e n).
Proof.
  unfold nextRange. rewrite maxLevel_closure_at.
  change (level (closure_at b s e n)) with (Z.of_nat n).
  destruct (Z.gtb_spec (Z.of_nat n) (Z.of_nat n - 1)); [reflexivity|lia].
Qed.

Lemma drain_closure_at m k :
  (k + m = n)%nat ->
  drain (S m) b (closure_at b s e k) = Ok (map (level_pair b s e) (seq k m)).
Proof.
  revert k. induction m as [|m IH]; intros k Hk.
  - replace k with n by lia. cbn [drain]. now rewrite nextRange_end.
  - change (drain (S (S m)) b (closure_at b s e k))
      with ('(r, c') <- nextRange b (closure_at b s e k) ;;
            match r with
            | None => Ok []
            | Some p => ps <- drain (S m) b c' ;; Ok (p :: ps)
            end).
    rewrite nextRange_level by lia. cbn [bind].
    rewrite IH by lia. reflexivity.
Qed.

Lemma Assign_loop_closure_at m k :
  (k + m = n)%nat ->
  Assign_loop (S m) b (closure_at b s e k)
  = first_single (map (level_pair b s e) (seq k m)).
Proof.
  revert k. induction m as [|m IH]; intros k Hk.
  - replace k with n by lia. cbn [Assign_loop]. now rewrite nextRange_end.
  - change (Assign_loop (S (S m)) b (closure_at b s e k))
      with ('(r, c') <- nextRange b (closure_at b s e k) ;;
            match r with
            | None => Panic FallThrough
            | Some (startBin, stopBin) =>
                if startBin =? stopBin then Ok startBin
                else Assign_loop (S m) b c'
            end).
    rewrite nextRange_level by lia. cbn [bind].
    unfold first_single. cbn [seq map find].
    destruct (level_pair b s e k) as [x y]. cbn [fst snd].
    destruct (x =? y); [reflexivity|]. apply IH. lia.
Qed.

Lemma Overlapping_loop_closure_at m k bins :
  (k + m = n)%nat ->
  Overlapping_loop (S m) b (closure_at b s e k) bins
  = collect (map (level_pair b s e) (seq k m)) bins.
Proof.
  revert k bins. induction m as [|m IH]; intros k bins Hk.
  - replace k with n by lia. cbn [Overlapping_loop]. now rewrite nextRange_end.
  - change (Overlapping_loop (S (S m)) b (closure_at b s e k) bins)
      with ('(r, c') <- nextRange b (closure_at b s e k) ;;
            match r with
            | None => Ok bins
            | Some (startBin, stopBin) =>
                tmp <- level_bins startBin stopBin ;;
                Overlapping_loop (S m) b c' (bins ++ tmp)
            end).
    rewrite nextRange_level by lia. cbn [bind seq map collect].
    destruct (level_pair b s e k) as [x y].
    destruct (level_bins x y); cbn [bind]; try reflexivity.
    apply IH. lia.
Qed.

End Walk.

(** ** Accepted intervals *)

Lemma out_of_range_false b start stop :
  out_of_range b start stop = false <->
  0 <= start /\ stop <= add (MaxPosition b) 1.
Proof.
  unfold out_of_range. rewrite orb_false_iff, Z.ltb_ge, Z.gtb_ltb, Z.ltb_ge.
  reflexivity.
Qed.

Lemma accepted_stop_le_int_max b start stop :
  out_of_range b start stop = false -> stop <= int_max.
Proof.
  intros H. apply out_of_range_false in H as [_ H].
  pose proof (wrap_in_int (MaxPosition b + 1)) as [_ Hw].
  unfold add in H. lia.
Qed.

(** After the range check the closure starts on the positions
    [start .. norm_stop start stop - 1]. *)
Lemma ranges_accepted b start stop :
  start <= int_max ->
  out_of_range b start stop = false ->
  ranges b start stop
  = Ok (closure_at b start (norm_stop start stop - 1) 0).
Proof.
  intros Hs Hacc. pose proof (accepted_stop_le_int_max _ _ _ Hacc) as Hstop.
  unfold ranges. rewrite Hacc.
  apply out_of_range_false in Hacc as [H0 _].
  unfold closure_at, shift_at, norm_stop, shr. cbn [pred Z.of_nat].
  rewrite Z.mul_0_l, Z.add_0_r.
  destruct (Z.leb_spec stop start).
  - rewrite sub_add_cancel by (now apply in_int_nonneg).
    now replace (start + 1 - 1) with start by lia.
  - rewrite sub_small by (apply in_int_nonneg; lia). reflexivity.
Qed.

Section Accepted.

Variable b : Binning.
Hypothesis Hwt : well_typed b.
Variables start stop : Z.
Hypothesis Hstart : start <= int_max.
Hypothesis Hacc : out_of_range b start stop = false.

Lemma drain_accepted :
  c <- ranges b start stop ;; drain (level_fuel b) b c
  = Ok (level_pairs b start (norm_stop start stop - 1)).
Proof.
  rewrite ranges_accepted by assumption. cbn [bind].
  now apply drain_closure_at.
Qed.

Lemma Assign_accepted :
  Assign b start stop
  = first_single (level_pairs b start (norm_stop start stop - 1)).
Proof.
  unfold Assign. rewrite ranges_accepted by assumption. cbn [bind].
  now apply Assign_loop_closure_at.
Qed.

Lemma Overlapping_accepted :
  Overlapping b start stop
  = collect (level_pairs b start (norm_stop start stop - 1)) [].
Proof.
  unfold Overlapping. rewrite ranges_accepted by assumption. cbn [bind].
  now apply Overlapping_loop_closure_at.
Qed.

End Accepted.

(** ** The bins of one level *)

Lemma set_nth_app l1 a l2 v :
  set_nth (l1 ++ a :: l2) (length l1) v = Some (l1 ++ v :: l2).
Proof.
  induction l1 as [|h t IH]; cbn; [reflexivity|]. now rewrite IH.
Qed.

Lemma store_app l1 a l2 v :
  store (l1 ++ a :: l2) (Z.of_nat (length l1)) v = Ok (l1 ++ v :: l2).
Proof.
  unfold store. destruct (Z.ltb_spec (Z.of_nat (length l1)) 0); [lia|].
  now rewrite Nat2Z.id, set_nth_app.
Qed.

Lemma upto_succ x j : upto x (S j) = upto x j ++ [x + Z.of_nat j].
Proof. unfold upto. now rewrite seq_S, map_app. Qed.

Lemma length_upto x j : length (upto x j) = j.
Proof. unfold upto. now rewrite length_map, length_seq. Qed.

(** Loop invariant of the inner loop: the first [j] cells hold
    [x .. x + j - 1], the other [r] cells are still zero. *)
Lemma fill_loop_upto x y r j :
  0 <= x -> y < int_max ->
  Z.of_nat (j + r) = y - x + 1 ->
  fill_loop (S r) x y (x + Z.of_nat j) (upto x j ++ repeat 0 r)
  = Ok (upto x (j + r)).
Proof.
  intros Hx Hy. revert j. induction r as [|r IH]; intros j Hn.
  - cbn [fill_loop repeat]. destruct (Z.leb_spec (x + Z.of_nat j) y); [lia|].
    now rewrite app_nil_r, Nat.add_0_r.
  - change (fill_loop (S (S r)) x y (x + Z.of_nat j) (upto x j ++ repeat 0 (S r)))
      with (if x + Z.of_nat j <=? y
            then tmp' <- store (upto x j ++ repeat 0 (S r))
                           (sub (x + Z.of_nat j) x) (x + Z.of_nat j) ;;
                 fill_loop (S r) x y (add (x + Z.of_nat j) 1) tmp'
            else Ok (upto x j ++ repeat 0 (S r))).
    destruct (Z.leb_spec (x + Z.of_nat j) y); [|lia].
    assert (Hsub : sub (x + Z.of_nat j) x = Z.of_nat (length (upto x j))).
    { rewrite length_upto, sub_small; [lia|].
      apply in_int_nonneg. unfold int_max in *. lia. }
    assert (Hadd : add (x + Z.of_nat j) 1 = x + Z.of_nat (S j)).
    { rewrite add_small; [lia|]. apply in_int_nonneg. lia. }
    rewrite Hsub, Hadd. cbn [repeat]. rewrite store_app. cbn [bind].
    replace (upto x j ++ (x + Z.of_nat j) :: repeat 0 r)
      with (upto x (S j) ++ repeat 0 r)
      by (now rewrite upto_succ, <- app_assoc).
    rewrite IH by lia. f_equal. f_equal. lia.
Qed.

Lemma level_bins_Zrange x y :
  0 <= x <= y -> y < int_max -> level_bins x y = Ok (Zrange x y).
Proof.
  intros Hxy Hy. unfold level_bins, make.
  assert (Hn : add (sub y x) 1 = y - x + 1).
  { rewrite sub_small by (apply in_int_nonneg; lia).
    apply add_small, in_int_nonneg. lia. }
  rewrite Hn. destruct (Z.ltb_spec (y - x + 1) 0); [lia|]. cbn [bind].
  rewrite repeat_length.
  pose proof (fill_loop_upto x y (Z.to_nat (y - x + 1)) 0) as Hfill.
  cbn [upto seq map app Nat.add Z.of_nat] in Hfill.
  rewrite Z.add_0_r in Hfill. apply Hfill; lia.
Qed.

Lemma In_Zrange x y z : In z (Zrange x y) <-> x <= z <= y.
Proof.
  unfold Zrange. rewrite in_map_iff. split.
  - intros [k [<- Hk]]. apply in_seq in Hk. lia.
  - intros H. exists (Z.to_nat (z - x)). split; [lia|]. apply in_seq. lia.
Qed.

Lemma collect_good ps bins :
  Forall good_pair ps ->
  collect ps bins
  = Ok (bins ++ concat (map (fun p => Zrange (fst p) (snd p)) ps)).
Proof.
  intros H. revert bins. induction H as [|[x y] ps [Hxy Hy] _ IH]; intros bins.
  - cbn. now rewrite app_nil_r.
  - cbn [collect map concat fst snd] in *.
    rewrite level_bins_Zrange by assumption. cbn [bind].
    now rewrite IH, app_assoc.
Qed.

(** ** Filtering in place *)

Lemma index_app_middle l1 a l2 i :
  i = length l1 -> index (l1 ++ a :: l2) (Z.of_nat i) = Ok a.
Proof.
  intros ->. unfold index.
  destruct (Z.ltb_spec (Z.of_nat (length l1)) 0); [lia|].
  rewrite Nat2Z.id, nth_error_app2, Nat.sub_diag by lia. reflexivity.
Qed.

(** Loop invariant of the filter: the shared array holds the elements kept
    so far, then cells already read whose content no longer matters, then the
    elements still to be read, untouched. *)
Lemma filter_loop_shared keep rest : forall kept junk i,
  i = (length kept + length junk)%nat ->
  exists arr' bins',
    filter_loop keep (length rest) i (kept ++ junk ++ rest)
      (Shared (length kept))
    = Ok (arr', bins')
    /\ bins_elements arr' bins' = kept ++ filter keep rest.
Proof.
  induction rest as [|r rest IH]; intros kept junk i Hi.
  - exists (kept ++ junk ++ []), (Shared (length kept)). split; [reflexivity|].
    cbn. now rewrite firstn_app, firstn_all, Nat.sub_diag, firstn_O.
  - cbn [length filter_loop filter].
    rewrite (app_assoc kept junk (r :: rest)), index_app_middle
      by (now rewrite length_app).
    cbn [bind]. rewrite <- (app_assoc kept junk (r :: rest)).
    destruct (keep r).
    + destruct junk as [|j junk]; cbn [append_bins app];
        rewrite set_nth_app.
      * destruct (IH (kept ++ [r]) [] (S i)) as (arr' & bins' & Hloop & Hel).
        { rewrite length_app. cbn [length] in *. lia. }
        rewrite length_app, <- !app_assoc in Hloop.
        cbn [length app] in Hloop.
        replace (length kept + 1)%nat with (S (length kept)) in Hloop by lia.
        exists arr', bins'. split; [exact Hloop|].
        now rewrite Hel, <- app_assoc.
      * destruct (IH (kept ++ [r]) (junk ++ [r]) (S i))
          as (arr' & bins' & Hloop & Hel).
        { rewrite !length_app. cbn [length] in *. lia. }
        rewrite length_app, <- !app_assoc in Hloop.
        cbn [length app] in Hloop.
        replace (length kept + 1)%nat with (S (length kept)) in Hloop by lia.
        exists arr', bins'. split; [exact Hloop|].
        now rewrite Hel, <- app_assoc.
    + destruct (IH kept (junk ++ [r]) (S i)) as (arr' & bins' & Hloop & Hel).
      { rewrite length_app. cbn [length]. lia. }
      rewrite <- !app_assoc in Hloop. cbn [app] in Hloop.
      exists arr', bins'. split; [exact Hloop|exact Hel].
Qed.

(** The in-place filter returns the kept elements in their order. *)
Lemma filter_in_place_filter keep l :
  filter_in_place keep l = Ok (filter keep l).
Proof.
  unfold filter_in_place.
  destruct (filter_loop_shared keep l [] [] 0%nat eq_refl)
    as (arr' & bins' & Hloop & Hel).
  cbn [app length] in Hloop. rewrite Hloop. cbn [bind]. now rewrite Hel.
Qed.

(** ** The standard scheme *)

Lemma well_typed_standard : well_typed standard.
Proof.
  constructor; cbn; unfold in_int, int_min, int_max; try lia.
  repeat constructor; lia.
Qed.

Lemma standard_accepted start stop :
  0 <= start -> stop <= MaxPosition standard + 1 ->
  out_of_range standard start stop = false.
Proof. intros H0 H1. apply out_of_range_false. cbn in *. lia. Qed.

(** A position shifted by at least [shiftFirst] leaves room for an offset. *)
Lemma shiftr_17_bound x n :
  0 <= x <= int_max -> 17 <= n -> 0 <= Z.shiftr x n < 2 ^ 46.
Proof.
  intros Hx Hn. rewrite Z.shiftr_div_pow2 by lia.
  assert (H17 : 2 ^ 17 <= 2 ^ n) by (apply Z.pow_le_mono_r; lia).
  split.
  - apply Z.div_pos; lia.
  - apply Z.div_lt_upper_bound; [lia|].
    unfold int_max in Hx. change (2 ^ 63) with (2 ^ 17 * 2 ^ 46) in Hx. nia.
Qed.

Lemma add_offset_shiftr off x n :
  0 <= off <= 585 -> 0 <= x <= int_max -> 17 <= n ->
  add off (Z.shiftr x n) = off + Z.shiftr x n.
Proof.
  intros Hoff Hx Hn. pose proof (shiftr_17_bound x n Hx Hn).
  apply add_small, in_int_nonneg. unfold int_max. lia.
Qed.

Lemma standard_level_pairs s e :
  0 <= s <= int_max -> 0 <= e <= int_max ->
  level_pairs standard s e
  = [(585 + Z.shiftr s 17, 585 + Z.shiftr e 17);
     (73 + Z.shiftr s 20, 73 + Z.shiftr e 20);
     (9 + Z.shiftr s 23, 9 + Z.shiftr e 23);
     (1 + Z.shiftr s 26, 1 + Z.shiftr e 26);
     (0 + Z.shiftr s 29, 0 + Z.shiftr e 29)].
Proof.
  intros Hs He. unfold level_pairs, level_pair, shift_at.
  cbn [standard binOffsets shiftFirst shiftNext length seq map nth].
  cbn [Z.of_nat Pos.of_succ_nat Pos.succ Z.mul Pos.mul Z.add Pos.add
       Pos.add_carry].
  rewrite !add_offset_shiftr by lia. reflexivity.
Qed.

Lemma standard_pairs_good s e :
  0 <= s <= e -> e <= int_max -> Forall good_pair (level_pairs standard s e).
Proof.
  intros Hse He. rewrite standard_level_pairs by lia.
  repeat constructor; cbn [fst snd];
    match goal with
    | |- context [Z.shiftr _ ?n] =>
        pose proof (shiftr_mono s e n ltac:(lia) ltac:(lia));
        pose proof (shiftr_17_bound s n ltac:(lia) ltac:(lia));
        pose proof (shiftr_17_bound e n ltac:(lia) ltac:(lia))
    end; unfold int_max; lia.
Qed.

(** First and last position of an accepted interval after normalisation. *)
Lemma norm_stop_bounds b start stop :
  start <= int_max ->
  out_of_range b start stop = false ->
  0 <= start <= norm_stop start stop - 1
  /\ norm_stop start stop - 1 <= int_max.
Proof.
  intros Hs Hacc. pose proof (accepted_stop_le_int_max _ _ _ Hacc).
  apply out_of_range_false in Hacc as [H0 _].
  unfold norm_stop. destruct (Z.leb_spec stop start); lia.
Qed.

(** ** [Assign] finds a level *)

Lemma first_single_found ps :
  Exists (fun p => fst p = snd p) ps ->
  exists i a, nth_error ps i = Some (a, a) /\ first_single ps = Ok a.
Proof.
  unfold first_single. induction ps as [|[x y] ps IH]; intros Hex.
  - inversion Hex.
  - cbn [find fst snd]. destruct (Z.eqb_spec x y) as [->|Hne].
    + now exists 0%nat, y.
    + inversion Hex as [? ? Heq|? ? Hex']; subst; [cbn in Heq; lia|].
      destruct (IH Hex') as (i & a & Hnth & Hfind).
      now exists (S i), a.
Qed.

Lemma shiftr_29_small x : 0 <= x < 2 ^ 29 -> Z.shiftr x 29 = 0.
Proof. intros H. rewrite Z.shiftr_div_pow2 by lia. now apply Z.div_small. Qed.

(** Some level of the standard scheme has a single bin for the interval:
    the finest one for a one-position interval, the root otherwise. *)
Lemma standard_single_level start stop :
  start <= int_max ->
  out_of_range standard start stop = false ->
  Exists (fun p => fst p = snd p)
    (level_pairs standard start (norm_stop start stop - 1)).
Proof.
  intros Hs Hacc.
  pose proof (norm_stop_bounds _ _ _ Hs Hacc) as [Hse He].
  rewrite standard_level_pairs by lia.
  apply out_of_range_false in Hacc as [H0 Hstop]. cbn in Hstop.
  unfold norm_stop in *. destruct (Z.leb_spec stop start).
  - apply Exists_cons_hd. cbn [fst snd]. do 2 f_equal. lia.
  - do 4 apply Exists_cons_tl. apply Exists_cons_hd. cbn [fst snd].
    rewrite !shiftr_29_small; lia.
Qed.

(** C7: under the standard scheme, for every interval the range check
    accepts, the closure yields at some level a pair of equal bins, and
    [Assign] returns that bin: it neither falls through to its panic nor
    fails otherwise. *)
Theorem Assign_standard_returns start stop :
  in_int start ->
  0 <= start -> stop <= MaxPosition standard + 1 ->
  exists c ps i bin,
    ranges standard start stop = Ok c
    /\ drain (level_fuel standard) standard c = Ok ps
    /\ nth_error ps i = Some (bin, bin)
    /\ Assign standard start stop = Ok bin.
Proof.
  intros [_ Hs] H0 Hstop.
  pose proof (standard_accepted _ _ H0 Hstop) as Hacc.
  destruct (first_single_found _ (standard_single_level _ _ Hs Hacc))
    as (i & bin & Hnth & Hfirst).
  exists (closure_at standard start (norm_stop start stop - 1) 0).
  exists (level_pairs standard start (norm_stop start stop - 1)).
  exists i, bin.
  split; [now apply ranges_accepted|].
  split; [now apply (drain_closure_at _ well_typed_standard)|].
  split; [exact Hnth|].
  rewrite <- Hfirst.
  now apply (Assign_accepted _ well_typed_standard).
Qed.

Lemma Assign_standard_returns_witness :
  exists c ps i bin,
    ranges standard 1200000 2000000 = Ok c
    /\ drain (level_fuel standard) standard c = Ok ps
    /\ nth_error ps i = Some (bin, bin)
    /\ Assign standard 1200000 2000000 = Ok bin.
Proof.
  apply (Assign_standard_returns 1200000 2000000);
    unfold in_int, int_min, int_max; cbn [standard MaxPosition]; lia.
Defined.

(** ** Containing and contained bins *)

Lemma Overlapping_standard start stop :
  start <= int_max ->
  out_of_range standard start stop = false ->
  Overlapping standard start stop
  = Ok (concat (map (fun p => Zrange (fst p) (snd p))
                  (level_pairs standard start (norm_stop start stop - 1)))).
Proof.
  intros Hs Hacc. pose proof (norm_stop_bounds _ _ _ Hs Hacc) as [Hse He].
  rewrite Overlapping_accepted by (assumption || apply well_typed_standard).
  now rewrite collect_good by (apply standard_pairs_good; lia).
Qed.

(** The bin of a single-bin level is among the bins of all levels. *)
Lemma single_level_in_concat ps i a :
  nth_error ps i = Some (a, a) ->
  In a (concat (map (fun p => Zrange (fst p) (snd p)) ps)).
Proof.
  intros Hnth. apply in_concat. exists (Zrange a a). split.
  - apply in_map_iff. exists (a, a). split; [reflexivity|].
    eapply nth_error_In, Hnth.
  - apply In_Zrange. lia.
Qed.

Section Partition.

Variables (a : Z) (ov : list Z).
Hypothesis Ha : In a ov.

Lemma below_above_union x :
  In x (filter (fun bin => bin <=? a) ov)
  \/ In x (filter (fun bin => bin >=? a) ov)
  <-> In x ov.
Proof.
  rewrite !filter_In. split; [tauto|].
  intros Hx. destruct (Z.leb_spec x a).
  - left. split; [assumption|reflexivity].
  - right. split; [assumption|]. apply Z.geb_le. lia.
Qed.

Lemma below_above_inter x :
  In x (filter (fun bin => bin <=? a) ov)
  /\ In x (filter (fun bin => bin >=? a) ov)
  <-> x = a.
Proof.
  rewrite !filter_In, Z.leb_le, Z.geb_le. split.
  - lia.
  - intros ->. repeat split; (assumption || lia).
Qed.

End Partition.

(** C4: under the standard scheme, for every accepted interval,
    [Containing] is the subsequence of [Overlapping] of the bins at most
    [Assign], [Contained] the subsequence of the bins at least [Assign];
    together they hold exactly the bins of [Overlapping], and the only bin in
    both is [Assign]. *)
Theorem Containing_Contained_partition start stop :
  in_int start ->
  0 <= start -> stop <= MaxPosition standard + 1 ->
  exists a ov containing contained,
    Assign standard start stop = Ok a
    /\ Overlapping standard start stop = Ok ov
    /\ Containing standard start stop = Ok containing
    /\ Contained standard start stop = Ok contained
    /\ containing = filter (fun bin => bin <=? a) ov
    /\ contained = filter (fun bin => bin >=? a) ov
    /\ (forall x, In x containing \/ In x contained <-> In x ov)
    /\ (forall x, In x containing /\ In x contained <-> x = a).
Proof.
  intros [_ Hs] H0 Hstop.
  pose proof (standard_accepted _ _ H0 Hstop) as Hacc.
  destruct (first_single_found _ (standard_single_level _ _ Hs Hacc))
    as (i & a & Hnth & Hfirst).
  pose proof (Assign_accepted _ well_typed_standard _ _ Hs Hacc) as HA.
  rewrite Hfirst in HA.
  pose proof (Overlapping_standard _ _ Hs Hacc) as HO.
  pose proof (single_level_in_concat _ _ _ Hnth) as Hin.
  exists a. eexists. eexists. eexists.
  split; [exact HA|]. split; [exact HO|].
  split; [unfold Containing; rewrite HA, HO; cbn [bind];
          apply filter_in_place_filter|].
  split; [unfold Contained; rewrite HA, HO; cbn [bind];
          apply filter_in_place_filter|].
  split; [reflexivity|]. split; [reflexivity|]. split.
  - intros x. apply below_above_union.
  - intros x. apply below_above_inter. exact Hin.
Qed.

Lemma Containing_Contained_partition_witness :
  exists a ov containing contained,
    Assign standard 300000000 301000015 = Ok a
    /\ Overlapping standard 300000000 301000015 = Ok ov
    /\ Containing standard 300000000 301000015 = Ok containing
    /\ Contained standard 300000000 301000015 = Ok contained
    /\ containing = filter (fun bin => bin <=? a) ov
    /\ contained = filter (fun bin => bin >=? a) ov
    /\ (forall x, In x containing \/ In x contained <-> In x ov)
    /\ (forall x, In x containing /\ In x contained <-> x = a).
Proof.
  apply (Containing_Contained_partition 300000000 301000015);
    unfold in_int, int_min, int_max; cbn [standard MaxPosition]; lia.
Defined.

(** ** Round trip through [Covered] *)

Lemma round_trip_all_bins :
  forallb (round_trip standard) (Zrange 0 (MaxBin standard)) = true.
Proof. vm_cast_no_check (eq_refl true). Qed.

(** C1: under the standard scheme every bin from 0 to [MaxBin] (4680) has a
    covered interval, and [Assign] on that interval returns the bin. *)
Theorem Covered_Assign_round_trip bin :
  0 <= bin <= MaxBin standard ->
  exists c0 c1,
    Covered standard bin = Ok (c0, c1) /\ Assign standard c0 c1 = Ok bin.
Proof.
  intros Hbin. pose proof round_trip_all_bins as Hall.
  rewrite forallb_forall in Hall.
  specialize (Hall bin (proj2 (In_Zrange _ _ _) Hbin)).
  unfold round_trip in Hall.
  destruct (Covered standard bin) as [[c0 c1]| | |]; try discriminate.
  exists c0, c1. split; [reflexivity|].
  destruct (Assign standard c0 c1) as [bin'| | |]; try discriminate.
  apply Z.eqb_eq in Hall. now subst.
Qed.

Lemma Covered_Assign_round_trip_witness :
  exists c0 c1,
    Covered standard 4680 = Ok (c0, c1) /\ Assign standard c0 c1 = Ok 4680.
Proof.
  apply (Covered_Assign_round_trip 4680). cbn [standard MaxBin]. lia.
Defined.

(** ** Boundary values *)

(** C9: the documented boundary values of the standard scheme. *)
Theorem standard_boundary_values :
  Assign standard 0 1 = Ok 585
  /\ Assign standard 0 (2 ^ 29) = Ok 0
  /\ Assign standard (2 ^ 29 - 1) (2 ^ 29) = Ok 4680
  /\ Overlapping standard 0 1 = Ok [585; 73; 9; 1; 0]
  /\ Overlapping standard 1200000 2000000
     = Ok [594; 595; 596; 597; 598; 599; 600; 74; 9; 1; 0].
Proof. repeat split; vm_compute; reflexivity. Qed.

(** C10: the range check runs before the normalisation of [stop <= start],
    so an interval that starts beyond [MaxPosition] is accepted;
    [Assign (1<<29, 0)] returns 4681, one more than [MaxBin], a bin that
    [Covered] rejects. *)
Theorem Assign_start_beyond_MaxPosition :
  (exists start stop,
      out_of_range standard start stop = false
      /\ start > MaxPosition standard
      /\ no_error (Assign standard start stop))
  /\ Assign standard (2 ^ 29) 0 = Ok 4681
  /\ 4681 > MaxBin standard
  /\ Covered standard 4681 = Err (InvalidBinError 4681 (MaxBin standard)).
Proof.
  split; [exists (2 ^ 29), 0|]; repeat split; try (vm_compute; reflexivity).
  intros e. vm_compute. discriminate.
Qed.

(** ** Errors *)

Lemma no_error_bind {A B : Type} (m : outcome A) (k : A -> outcome B) :
  no_error m -> (forall a, no_error (k a)) -> no_error (bind m k).
Proof.
  intros Hm Hk e. destruct m as [a| e' | |]; cbn; try discriminate.
  - apply Hk.
  - now destruct (Hm e').
Qed.

Lemma no_error_Ok {A : Type} (a : A) : no_error (Ok a).
Proof. intros e. discriminate. Qed.

Lemma no_error_Panic {A : Type} (p : panic) : no_error (@Panic A p).
Proof. intros e. discriminate. Qed.

Lemma no_error_OutOfFuel {A : Type} : no_error (@OutOfFuel A).
Proof. intros e. discriminate. Qed.

Create HintDb no_err.
#[local] Hint Resolve no_error_Ok no_error_Panic no_error_OutOfFuel : no_err.

Lemma index_no_error s i : no_error (index s i).
Proof.
  unfold index. destruct (i <? 0); auto with no_err.
  destruct (nth_error s (Z.to_nat i)); auto with no_err.
Qed.

Lemma store_no_error s i v : no_error (store s i v).
Proof.
  unfold store. destruct (i <? 0); auto with no_err.
  destruct (set_nth s (Z.to_nat i) v); auto with no_err.
Qed.

Lemma nextRange_no_error b c : no_error (nextRange b c).
Proof.
  unfold nextRange. destruct (level c >? maxLevel c); auto with no_err.
  apply no_error_bind; [apply index_no_error|auto with no_err].
Qed.

Lemma Assign_loop_no_error fuel b : forall c, no_error (Assign_loop fuel b c).
Proof.
  induction fuel as [|fuel IH]; intros c; cbn [Assign_loop]; auto with no_err.
  apply no_error_bind; [apply nextRange_no_error|].
  intros [[[x y]|] c']; auto with no_err.
  destruct (x =? y); auto with no_err.
Qed.

Lemma fill_loop_no_error fuel x y :
  forall bin tmp, no_error (fill_loop fuel x y bin tmp).
Proof.
  induction fuel as [|fuel IH]; intros bin tmp; cbn [fill_loop];
    auto with no_err.
  destruct (bin <=? y); auto with no_err.
  apply no_error_bind; [apply store_no_error|auto].
Qed.

Lemma level_bins_no_error x y : no_error (level_bins x y).
Proof.
  unfold level_bins, make. destruct (add (sub y x) 1 <? 0); cbn [bind];
    auto with no_err. apply fill_loop_no_error.
Qed.

Lemma Overlapping_loop_no_error fuel b :
  forall c bins, no_error (Overlapping_loop fuel b c bins).
Proof.
  induction fuel as [|fuel IH]; intros c bins; cbn [Overlapping_loop];
    auto with no_err.
  apply no_error_bind; [apply nextRange_no_error|].
  intros [[[x y]|] c']; auto with no_err.
  apply no_error_bind; [apply level_bins_no_error|auto].
Qed.

Lemma not_range_error {A : Type} (o : outcome A) :
  no_error o -> ~ range_error o.
Proof.
  intros Hne. destruct o as [a|e| |]; cbn; try tauto. now destruct (Hne e).
Qed.

Section RangeCheck.

Variable b : Binning.
Variables start stop : Z.

Lemma out_of_range_true :
  out_of_range b start stop = true
  <-> start < 0 \/ stop > add (MaxPosition b) 1.
Proof.
  unfold out_of_range.
  rewrite orb_true_iff, Z.ltb_lt, Z.gtb_ltb, Z.ltb_lt. lia.
Qed.

(** Once the range check has passed none of the operations returns an
    error value. *)
Lemma accepted_no_error :
  out_of_range b start stop = false ->
  no_error (Assign b start stop) /\ no_error (Overlapping b start stop)
  /\ no_error (Containing b start stop)
  /\ no_error (Contained b start stop).
Proof.
  intros Hacc.
  assert (HA : no_error (Assign b start stop)).
  { unfold Assign, ranges. rewrite Hacc. apply Assign_loop_no_error. }
  assert (HO : no_error (Overlapping b start stop)).
  { unfold Overlapping, ranges. rewrite Hacc.
    apply Overlapping_loop_no_error. }
  repeat split; try assumption.
  - unfold Containing. apply no_error_bind; [assumption|]. intros a.
    apply no_error_bind; [assumption|]. intros ov.
    rewrite filter_in_place_filter. apply no_error_Ok.
  - unfold Contained. apply no_error_bind; [assumption|]. intros a.
    apply no_error_bind; [assumption|]. intros ov.
    rewrite filter_in_place_filter. apply no_error_Ok.
Qed.

Lemma rejected_range_error :
  out_of_range b start stop = true ->
  range_error (Assign b start stop)
  /\ range_error (Overlapping b start stop)
  /\ range_error (Containing b start stop)
  /\ range_error (Contained b start stop).
Proof.
  intros Hrej. unfold Containing, Contained, Assign, Overlapping, ranges.
  rewrite Hrej. cbn. tauto.
Qed.

End RangeCheck.

(** C6: each of [Assign], [Overlapping], [Containing] and [Contained]
    returns the range error exactly when [start < 0] or
    [stop > MaxPosition + 1] (the sum being Go's [int] addition, as in the
    check); an accepted interval with [stop <= start] is not rejected: the
    closure starts on the single position [start]. *)
Theorem range_error_iff b start stop :
  (range_error (Assign b start stop)
   <-> start < 0 \/ stop > add (MaxPosition b) 1)
  /\ (range_error (Overlapping b start stop)
      <-> start < 0 \/ stop > add (MaxPosition b) 1)
  /\ (range_error (Containing b start stop)
      <-> start < 0 \/ stop > add (MaxPosition b) 1)
  /\ (range_error (Contained b start stop)
      <-> start < 0 \/ stop > add (MaxPosition b) 1)
  /\ (in_int start -> 0 <= start -> stop <= start ->
      stop <= add (MaxPosition b) 1 ->
      ranges b start stop
      = Ok {| startBin := shr start (shiftFirst b);
              stopBin := shr start (shiftFirst b);
              maxLevel := sub (len (binOffsets b)) 1;
              level := 0 |}
      /\ (well_typed b -> binOffsets b <> [] ->
          Assign b start stop
          = Ok (add (nth 0 (binOffsets b) 0) (shr start (shiftFirst b))))).
Proof.
  destruct (out_of_range b start stop) eqn:Hguard.
  - pose proof (rejected_range_error _ _ _ Hguard) as (HA & HO & HC & HD).
    apply out_of_range_true in Hguard.
    do 4 (split; [tauto|]). intros. exfalso. lia.
  - pose proof (accepted_no_error _ _ _ Hguard) as (HA & HO & HC & HD).
    apply not_range_error in HA, HO, HC, HD.
    assert (Hn : ~ (start < 0 \/ stop > add (MaxPosition b) 1)).
    { rewrite <- out_of_range_true. congruence. }
    do 4 (split; [tauto|]).
    intros [_ Hs] H0 Hle _. pose proof Hle as Hleb. apply Z.leb_le in Hleb.
    split.
    + unfold ranges. rewrite Hguard, Hleb.
      now rewrite sub_add_cancel by (now apply in_int_nonneg).
    + intros Hwt Hne.
      rewrite (Assign_accepted _ Hwt _ _ Hs Hguard).
      unfold norm_stop. rewrite Hleb.
      replace (start + 1 - 1) with start by lia.
      unfold level_pairs. destruct (binOffsets b) as [|off rest] eqn:Hoffs;
        [congruence|].
      cbn [length seq map]. unfold first_single, level_pair. cbn [find fst snd].
      rewrite Z.eqb_refl, Hoffs. cbn [nth fst]. unfold shift_at, shr.
      cbn [Z.of_nat]. now rewrite Z.mul_0_l, Z.add_0_r.
Qed.

Lemma range_error_iff_witness :
  ranges standard 7 3
  = Ok {| startBin := shr 7 (shiftFirst standard);
          stopBin := shr 7 (shiftFirst standard);
          maxLevel := sub (len (binOffsets standard)) 1;
          level := 0 |}
  /\ Assign standard 7 3
     = Ok (add (nth 0 (binOffsets standard) 0) (shr 7 (shiftFirst standard))).
Proof.
  assert (Hle : 3 <= add (MaxPosition standard) 1)
    by (vm_compute; discriminate).
  assert (Hint : in_int 7) by (unfold in_int, int_min, int_max; lia).
  destruct (proj2 (proj2 (proj2 (proj2 (range_error_iff standard 7 3))))
              Hint ltac:(lia) ltac:(lia) Hle) as [Hranges HAssign].
  split; [exact Hranges|].
  apply HAssign; [apply well_typed_standard|discriminate].
Defined.

(** ** [Covered] *)

Lemma Covered_loop_no_error offsets sn :
  forall shift bin, no_error (Covered_loop offsets sn shift bin).
Proof.
  induction offsets as [|offset rest IH]; intros shift bin; cbn [Covered_loop];
    auto with no_err.
  destruct (offset <=? bin); auto with no_err.
Qed.

(** The scan stops at the first level whose offset is at most the bin. *)
Lemma Covered_loop_returns offsets sn bin :
  Exists (fun offset => offset <= bin) offsets ->
  forall shift, exists c0 c1, Covered_loop offsets sn shift bin = Ok (c0, c1).
Proof.
  induction 1 as [offset rest Hle|offset rest _ IH]; intros shift;
    cbn [Covered_loop].
  - apply Z.leb_le in Hle. rewrite Hle. eauto.
  - destruct (offset <=? bin); [eauto|apply IH].
Qed.

Lemma last_root_offset offsets :
  last offsets 1 = 0 -> exists finer, offsets = finer ++ [0].
Proof.
  intros Hlast. induction offsets as [|o finer _] using rev_ind.
  - discriminate.
  - rewrite last_last in Hlast. subst. now exists finer.
Qed.

(** C8, amended: [Covered] returns the invalid-bin error exactly when
    [bin < 0] or [bin > MaxBin]; for every other bin it returns an interval
    when the offsets of the scheme end with the root offset 0; and under the
    standard scheme [Covered 4681] fails. *)
Theorem Covered_invalid_bin_iff b bin :
  (invalid_bin_error (Covered b bin) <-> bin < 0 \/ bin > MaxBin b)
  /\ (last (binOffsets b) 1 = 0 ->
      ~ (bin < 0 \/ bin > MaxBin b) ->
      exists c0 c1, Covered b bin = Ok (c0, c1))
  /\ Covered standard 4681 = Err (InvalidBinError 4681 4680).
Proof.
  assert (Hguard : (bin <? 0) || (bin >? MaxBin b) = true
                   <-> bin < 0 \/ bin > MaxBin b).
  { rewrite orb_true_iff, Z.ltb_lt, Z.gtb_ltb, Z.ltb_lt. lia. }
  unfold Covered. split; [|split].
  - destruct ((bin <? 0) || (bin >? MaxBin b)).
    + cbn. tauto.
    + split; [|intros Hrej; apply Hguard in Hrej; discriminate].
      intros Herr. exfalso.
      pose proof (Covered_loop_no_error (binOffsets b) (shiftNext b)
                    (shiftFirst b) bin) as Hne.
      destruct (Covered_loop _ _ _ _) as [?|e| |]; cbn in Herr; try tauto.
      now destruct (Hne e).
  - intros Hroot Hvalid.
    destruct ((bin <? 0) || (bin >? MaxBin b)); [tauto|].
    apply Covered_loop_returns.
    destruct (last_root_offset _ Hroot) as [finer ->].
    apply Exists_exists. exists 0. split; [apply in_elt|lia].
  - reflexivity.
Qed.

Lemma Covered_invalid_bin_iff_witness :
  exists c0 c1, Covered standard 585 = Ok (c0, c1).
Proof.
  apply (proj1 (proj2 (Covered_invalid_bin_iff standard 585)));
    [reflexivity|cbn [standard MaxBin]; lia].
Defined.

(** C8 as stated fails on "otherwise returns an interval": on a scheme whose
    offsets do not reach 0 a bin within [0, MaxBin] lies below every
    offset, and the scan of [Covered] falls through to its panic. *)
Lemma Covered_valid_bin_panics :
  exists b,
    NewBinning 7 [10; 5] 1 1 = Ok b
    /\ MaxBin b = 13
    /\ ~ (3 < 0 \/ 3 > MaxBin b)
    /\ Covered b 3 = Panic FallThrough
    /\ ~ (exists c0 c1, Covered b 3 = Ok (c0, c1)).
Proof.
  exists {| MaxPosition := 7; MaxBin := 13; binOffsets := [10; 5];
            shiftFirst := 1; shiftNext := 1 |}.
  split; [reflexivity|]. split; [reflexivity|].
  split; [cbn [MaxBin]; lia|]. split; [reflexivity|].
  intros (c0 & c1 & Hcov). discriminate Hcov.
Qed.

(** ** The sequence of level pairs *)

Lemma nth_error_level_pairs b s e i offset :
  nth_error (binOffsets b) i = Some offset ->
  nth_error (level_pairs b s e) i
  = Some (add offset (Z.shiftr s (shiftFirst b + Z.of_nat i * shiftNext b)),
          add offset (Z.shiftr e (shiftFirst b + Z.of_nat i * shiftNext b))).
Proof.
  intros Hnth. unfold level_pairs.
  assert (Hi : (i < length (binOffsets b))%nat)
    by (apply nth_error_Some; congruence).
  rewrite nth_error_map, nth_error_seq.
  destruct (Nat.ltb_spec i (length (binOffsets b))); [|lia].
  cbn [option_map Nat.add]. unfold level_pair, shift_at.
  now rewrite (nth_error_nth _ _ 0 Hnth).
Qed.

(** The root pair is [(0, 0)] when the root offset is 0 and the positions
    up to [MaxPosition] all fall into the first bin of the root level. *)
Lemma root_pair_zero b s e :
  well_typed b ->
  last (binOffsets b) 1 = 0 ->
  0 <= s <= e -> e <= MaxPosition b ->
  Z.shiftr (MaxPosition b)
    (shiftFirst b + (len (binOffsets b) - 1) * shiftNext b) = 0 ->
  last (level_pairs b s e) (1, 1) = (0, 0).
Proof.
  intros Hwt Hroot Hse He Hmax. unfold level_pairs, len in *.
  destruct (last_root_offset _ Hroot) as [finer Hoffs].
  rewrite Hoffs, length_app, Nat.add_comm in *. cbn [length Nat.add] in *.
  rewrite seq_S, map_app. cbn [Nat.add map]. rewrite last_last.
  unfold level_pair. rewrite Hoffs, nth_middle.
  replace (Z.of_nat (S (length finer)) - 1) with (Z.of_nat (length finer))
    in Hmax by lia.
  fold (shift_at b (length finer)) in Hmax.
  pose proof (shift_at_nonneg b Hwt (length finer)) as Hsh.
  pose proof (shiftr_nonneg_le s _ ltac:(lia) Hsh).
  pose proof (shiftr_mono s e _ Hsh ltac:(lia)).
  pose proof (shiftr_mono e (MaxPosition b) _ Hsh He).
  replace (Z.shiftr s (shift_at b (length finer))) with 0 by lia.
  replace (Z.shiftr e (shift_at b (length finer))) with 0 by lia.
  reflexivity.
Qed.

(** The limit of the range check never exceeds [MaxPosition + 1]. *)
Lemma add_MaxPosition_le b :
  in_int (MaxPosition b) -> add (MaxPosition b) 1 <= MaxPosition b + 1.
Proof.
  intros [Hlo Hhi]. unfold add, wrap, int_min, int_max in *.
  destruct (Z.eq_dec (MaxPosition b) (2 ^ 63 - 1)) as [->|Hne].
  - vm_compute. discriminate.
  - rewrite Z.mod_small; lia.
Qed.

(** C5, amended: for every accepted interval the closure yields one pair
    per level, finest first; the pair of level [i] is [binOffsets[i]] plus
    the first and the last position of the normalised interval shifted by
    [shiftFirst + i * shiftNext]; the last pair is [(0, 0)] when the root
    offset is 0, the interval starts at most at [MaxPosition] and
    [MaxPosition] falls into the first bin of the root level. *)
Theorem ranges_level_sequence b start stop :
  well_typed b ->
  in_int start ->
  0 <= start -> stop <= add (MaxPosition b) 1 ->
  exists c ps,
    ranges b start stop = Ok c
    /\ drain (level_fuel b) b c = Ok ps
    /\ length ps = length (binOffsets b)
    /\ (forall i offset,
           nth_error (binOffsets b) i = Some offset ->
           nth_error ps i
           = Some (add offset
                     (Z.shiftr start
                        (shiftFirst b + Z.of_nat i * shiftNext b)),
                   add offset
                     (Z.shiftr (norm_stop start stop - 1)
                        (shiftFirst b + Z.of_nat i * shiftNext b))))
    /\ (last (binOffsets b) 1 = 0 ->
        start <= MaxPosition b ->
        Z.shiftr (MaxPosition b)
          (shiftFirst b + (len (binOffsets b) - 1) * shiftNext b) = 0 ->
        last ps (1, 1) = (0, 0)).
Proof.
  intros Hwt [_ Hs] H0 Hstop.
  assert (Hacc : out_of_range b start stop = false)
    by (now apply out_of_range_false).
  exists (closure_at b start (norm_stop start stop - 1) 0).
  exists (level_pairs b start (norm_stop start stop - 1)).
  split; [now apply ranges_accepted|].
  split; [now apply drain_closure_at|].
  split; [unfold level_pairs; now rewrite length_map, length_seq|].
  split; [intros i offset; apply nth_error_level_pairs|].
  intros Hroot Hmax Hfit.
  pose proof (norm_stop_bounds _ _ _ Hs Hacc) as [Hse _].
  apply root_pair_zero; try assumption.
  pose proof (add_MaxPosition_le b (wt_MaxPosition b Hwt)).
  unfold norm_stop. destruct (Z.leb_spec stop start); lia.
Qed.

Lemma ranges_level_sequence_witness :
  exists c ps,
    ranges standard 1200000 2000000 = Ok c
    /\ drain (level_fuel standard) standard c = Ok ps
    /\ length ps = length (binOffsets standard)
    /\ (forall i offset,
           nth_error (binOffsets standard) i = Some offset ->
           nth_error ps i
           = Some (add offset
                     (Z.shiftr 1200000
                        (shiftFirst standard
                         + Z.of_nat i * shiftNext standard)),
                   add offset
                     (Z.shiftr (norm_stop 1200000 2000000 - 1)
                        (shiftFirst standard
                         + Z.of_nat i * shiftNext standard))))
    /\ (last (binOffsets standard) 1 = 0 ->
        1200000 <= MaxPosition standard ->
        Z.shiftr (MaxPosition standard)
          (shiftFirst standard
           + (len (binOffsets standard) - 1) * shiftNext standard) = 0 ->
        last ps (1, 1) = (0, 0)).
Proof.
  apply (ranges_level_sequence standard 1200000 2000000).
  - apply well_typed_standard.
  - unfold in_int, int_min, int_max. lia.
  - lia.
  - vm_compute. discriminate.
Defined.

(** C5 as stated fails on its last part: a scheme whose root level has two
    bins yields a root pair other than [(0, 0)], and so does the standard
    scheme for an interval starting beyond [MaxPosition]. *)
Lemma root_pair_not_zero :
  (exists b c ps,
      NewBinning 7 [10; 0] 1 1 = Ok b
      /\ out_of_range b 4 5 = false
      /\ ranges b 4 5 = Ok c
      /\ drain (level_fuel b) b c = Ok ps
      /\ ps = [(12, 12); (1, 1)]
      /\ last ps (0, 0) <> (0, 0))
  /\ (exists c ps,
         out_of_range standard (2 ^ 29) 0 = false
         /\ ranges standard (2 ^ 29) 0 = Ok c
         /\ drain (level_fuel standard) standard c = Ok ps
         /\ ps = [(4681, 4681); (585, 585); (73, 73); (9, 9); (1, 1)]
         /\ last ps (0, 0) <> (0, 0)).
Proof.
  split.
  - exists {| MaxPosition := 7; MaxBin := 13; binOffsets := [10; 0];
              shiftFirst := 1; shiftNext := 1 |}.
    exists {| startBin := 2; stopBin := 2; maxLevel := 1; level := 0 |}.
    exists [(12, 12); (1, 1)].
    repeat split; try reflexivity. cbn [last]. discriminate.
  - exists {| startBin := 4096; stopBin := 4096; maxLevel := 4; level := 0 |}.
    exists [(4681, 4681); (585, 585); (73, 73); (9, 9); (1, 1)].
    repeat split; try (vm_compute; reflexivity). cbn [last]. discriminate.
Qed.

(** ** Bins and the intervals they cover, standard scheme *)

Lemma shiftr_bounds x n :
  0 <= n -> 2 ^ n * Z.shiftr x n <= x < 2 ^ n * (Z.shiftr x n + 1).
Proof.
  intros Hn. rewrite Z.shiftr_div_pow2 by assumption.
  assert (0 < 2 ^ n) by (apply Z.pow_pos_nonneg; lia).
  split.
  - now apply Z.mul_div_le.
  - rewrite Z.add_1_r. now apply Z.mul_succ_div_gt.
Qed.

Lemma shl_small q n :
  0 <= n -> 0 <= 2 ^ n * q <= int_max -> shl q n = 2 ^ n * q.
Proof.
  intros Hn Hq. unfold shl. rewrite Z.shiftl_mul_pow2 by assumption.
  rewrite Z.mul_comm. now apply wrap_small, in_int_nonneg.
Qed.

Ltac eval_uadd :=
  repeat match goal with
         | |- context [uadd ?x ?y] =>
             let v := eval vm_compute in (uadd x y) in
             change (uadd x y) with v
         end.

Ltac small_arith :=
  repeat first
    [ rewrite add_small by (unfold in_int, int_min, int_max; lia)
    | rewrite sub_small by (unfold in_int, int_min, int_max; lia) ].

(** The bin number [q] of a level is covered by the positions
    [q * 2^shift .. (q + 1) * 2^shift - 1]. *)
Lemma Covered_standard_level offset shift count q :
  In (offset, shift, count) standard_levels ->
  0 <= q < count ->
  Covered standard (offset + q) = Ok (2 ^ shift * q, 2 ^ shift * (q + 1)).
Proof.
  intros Hin Hq. unfold Covered.
  cbn [standard MaxBin binOffsets shiftFirst shiftNext].
  assert (Hvalid : 0 <= offset + q <= 4680).
  { cbn [In standard_levels] in Hin.
    repeat (destruct Hin as [Hin|Hin]; [inversion Hin; subst; lia|]).
    destruct Hin. }
  destruct (Z.ltb_spec (offset + q) 0); [lia|].
  destruct (Z.gtb_spec (offset + q) 4680); [lia|]. cbn [orb].
  cbn [In standard_levels] in Hin.
  repeat (destruct Hin as [Hin|Hin];
          [inversion Hin; subst offset shift count; clear Hin|]);
    [..|destruct Hin];
    cbn [Covered_loop]; eval_uadd;
    repeat match goal with
           | |- context [?o <=? ?x] => destruct (Z.leb_spec o x); [|lia]
           | |- context [?o <=? ?x] => destruct (Z.leb_spec o x); [lia|]
           end;
    small_arith;
    rewrite !shl_small by (unfold int_max; lia);
    do 2 f_equal; lia.
Qed.

(** The facts about the five shifts of a position that linear arithmetic
    needs. *)
Ltac shift_facts x :=
  pose proof (shiftr_bounds x 17 ltac:(lia));
  pose proof (shiftr_bounds x 20 ltac:(lia));
  pose proof (shiftr_bounds x 23 ltac:(lia));
  pose proof (shiftr_bounds x 26 ltac:(lia));
  pose proof (shiftr_bounds x 29 ltac:(lia));
  change (2 ^ 17) with 131072 in *;
  change (2 ^ 20) with 1048576 in *;
  change (2 ^ 23) with 8388608 in *;
  change (2 ^ 26) with 67108864 in *;
  change (2 ^ 29) with 536870912 in *.

(** Within [MaxPosition] the bin of [Assign] covers the whole interval: the
    property that [TestAssignCovered] checks on its sample intervals. *)
Lemma Assign_Covered_encloses start stop :
  0 <= start <= MaxPosition standard ->
  stop <= MaxPosition standard + 1 ->
  exists bin c0 c1,
    Assign standard start stop = Ok bin
    /\ Covered standard bin = Ok (c0, c1)
    /\ c0 <= start /\ stop <= c1.
Proof.
  intros Hstart Hstop. cbn [standard MaxPosition] in *.
  assert (Hs : start <= int_max) by (unfold int_max; lia).
  pose proof (standard_accepted _ _ (proj1 Hstart) Hstop) as Hacc.
  rewrite (Assign_accepted _ well_typed_standard _ _ Hs Hacc).
  pose proof (norm_stop_bounds _ _ _ Hs Hacc) as [Hse He].
  assert (Hlast : stop - 1 <= norm_stop start stop - 1 < 2 ^ 29).
  { unfold norm_stop. destruct (Z.leb_spec stop start); lia. }
  set (e := norm_stop start stop - 1) in *. clearbody e.
  rewrite standard_level_pairs by lia.
  shift_facts start. shift_facts e.
  unfold first_single. cbn [find fst snd].
  repeat match goal with
         | |- context [?x =? ?y] => destruct (Z.eqb_spec x y)
         end; [..|exfalso; lia].
  all: cbn [fst].
  all: match goal with
       | |- context [Ok (?off + Z.shiftr ?x ?sh)] =>
           eexists (off + Z.shiftr x sh), _, _;
           split; [reflexivity|]; split;
           [eapply (Covered_standard_level off sh);
            [cbn [In standard_levels]; tauto|lia]|]
       end.
  all: first [change (2 ^ 17) with 131072 | change (2 ^ 20) with 1048576
             | change (2 ^ 23) with 8388608 | change (2 ^ 26) with 67108864
             | change (2 ^ 29) with 536870912 ]; lia.
Qed.

Lemma norm_stop_max start stop : norm_stop start stop = Z.max stop (start + 1).
Proof. unfold norm_stop. destruct (Z.leb_spec stop start); lia. Qed.

(** Every bin of the standard scheme belongs to one level. *)
Lemma standard_bin_level bin :
  0 <= bin <= MaxBin standard ->
  exists offset shift count,
    In (offset, shift, count) standard_levels /\ 0 <= bin - offset < count.
Proof.
  cbn [standard MaxBin]. intros Hbin.
  destruct (Z.le_gt_cases 585 bin);
    [exists 585, 17, 4096; cbn [In standard_levels]; split; [tauto|lia]|].
  destruct (Z.le_gt_cases 73 bin);
    [exists 73, 20, 512; cbn [In standard_levels]; split; [tauto|lia]|].
  destruct (Z.le_gt_cases 9 bin);
    [exists 9, 23, 64; cbn [In standard_levels]; split; [tauto|lia]|].
  destruct (Z.le_gt_cases 1 bin);
    [exists 1, 26, 8; cbn [In standard_levels]; split; [tauto|lia]|].
  exists 0, 29, 1. cbn [In standard_levels]. split; [tauto|lia].
Qed.

(** Within [MaxPosition] the bins of [Overlapping] are those whose covered
    interval has a position in common with the normalised interval. *)
Lemma Overlapping_iff_shares_position start stop bin :
  0 <= start <= MaxPosition standard ->
  stop <= MaxPosition standard + 1 ->
  0 <= bin <= MaxBin standard ->
  exists ov c0 c1,
    Overlapping standard start stop = Ok ov
    /\ Covered standard bin = Ok (c0, c1)
    /\ (In bin ov
        <-> shares_position c0 c1 start (Z.max stop (start + 1))).
Proof.
  intros Hstart Hstop Hbin.
  destruct (standard_bin_level bin Hbin)
    as (offset & shift & count & Hlevel & Hq).
  pose proof (Covered_standard_level _ _ _ _ Hlevel Hq) as Hcov.
  replace (offset + (bin - offset)) with bin in Hcov by lia.
  cbn [standard MaxPosition MaxBin] in *.
  assert (Hs : start <= int_max) by (unfold int_max; lia).
  pose proof (standard_accepted _ _ (proj1 Hstart) Hstop) as Hacc.
  eexists _, _, _. split; [now apply Overlapping_standard|].
  split; [exact Hcov|].
  rewrite <- norm_stop_max.
  pose proof (norm_stop_bounds _ _ _ Hs Hacc) as [Hse He].
  assert (Hlast : norm_stop start stop - 1 < 2 ^ 29).
  { unfold norm_stop. destruct (Z.leb_spec stop start); lia. }
  replace (norm_stop start stop) with (norm_stop start stop - 1 + 1) at 2
    by lia.
  set (e := norm_stop start stop - 1) in *. clearbody e.
  rewrite standard_level_pairs by lia.
  cbn [map concat fst snd]. rewrite !in_app_iff, !In_Zrange. cbn [In].
  shift_facts start. shift_facts e. unfold shares_position.
  cbn [In standard_levels] in Hlevel.
  repeat (destruct Hlevel as [Hlevel|Hlevel];
          [inversion Hlevel; subst offset shift count; clear Hlevel|]);
    [..|destruct Hlevel].
  all: first [change (2 ^ 17) with 131072 | change (2 ^ 20) with 1048576
             | change (2 ^ 23) with 8388608 | change (2 ^ 26) with 67108864
             | change (2 ^ 29) with 536870912 ].
  all: split;
    [ intros Hin;
      match goal with
      | |- exists p, ?c0 <= p < _ /\ _ => exists (Z.max start c0)
      end; lia
    | intros (p & Hp0 & Hp1); lia ].
Qed.

(** ** Intervals that start beyond [MaxPosition] *)

(** C2 at the interval [(1<<29, 0)]: the range check accepts it, [Assign]
    returns bin 4681, and [Covered] rejects that bin as invalid, so no
    covered interval encloses the query. *)
Theorem Assign_beyond_MaxPosition_not_covered :
  out_of_range standard (2 ^ 29) 0 = false
  /\ Assign standard (2 ^ 29) 0 = Ok 4681
  /\ Covered standard 4681 = Err (InvalidBinError 4681 (MaxBin standard))
  /\ ~ (exists c0 c1, Covered standard 4681 = Ok (c0, c1)
                      /\ c0 <= 2 ^ 29 /\ 0 <= c1).
Proof.
  split; [reflexivity|]. split; [reflexivity|]. split; [reflexivity|].
  intros (c0 & c1 & Hcov & _).
  change (Covered standard 4681)
    with (@Err (Z * Z) (InvalidBinError 4681 4680)) in Hcov.
  discriminate Hcov.
Qed.

(** C3 at the interval [(1<<29, 0)] and bin 585: the bin is valid and among
    the bins of [Overlapping], yet the interval it covers, [0, 131072), has
    no position in common with the normalised query [1<<29, 1<<29 + 1). *)
Theorem Overlapping_beyond_MaxPosition_disjoint :
  out_of_range standard (2 ^ 29) 0 = false
  /\ 0 <= 585 <= MaxBin standard
  /\ Overlapping standard (2 ^ 29) 0 = Ok [4681; 585; 73; 9; 1]
  /\ In 585 [4681; 585; 73; 9; 1]
  /\ Covered standard 585 = Ok (0, 131072)
  /\ ~ shares_position 0 131072 (2 ^ 29) (Z.max 0 (2 ^ 29 + 1)).
Proof.
  split; [reflexivity|].
  split; [cbn [standard MaxBin]; lia|].
  split; [vm_compute; reflexivity|].
  split; [cbn [In]; tauto|].
  split; [vm_compute; reflexivity|].
  intros (p & Hp0 & Hp1). change (2 ^ 29) with 536870912 in Hp1. lia.
Qed.

(** ** The fuel of the loops is enough *)

Lemma set_nth_lt s : forall n v,
  (n < length s)%nat ->
  exists s', set_nth s n v = Some s' /\ length s' = length s.
Proof.
  induction s as [|h t IH]; intros n v Hn; cbn [length] in Hn; [lia|].
  destruct n as [|n]; cbn [set_nth].
  - now exists (v :: t).
  - destruct (IH n v ltac:(lia)) as (t' & -> & Hlen).
    exists (h :: t'). cbn. now rewrite Hlen.
Qed.

Lemma set_nth_ge s : forall n v, (length s <= n)%nat -> set_nth s n v = None.
Proof.
  induction s as [|h t IH]; intros n v Hn; [reflexivity|].
  cbn [length] in Hn. destruct n as [|n]; [lia|].
  cbn [set_nth]. now rewrite IH by lia.
Qed.

Lemma sub_add_1 bin x : sub (add bin 1) x = add (sub bin x) 1.
Proof.
  unfold sub, add.
  replace (wrap (bin + 1) - x) with (wrap (bin + 1) + - x) by lia.
  rewrite !wrap_add_l. f_equal. lia.
Qed.

Lemma fill_loop_step fuel x y bin tmp :
  fill_loop (S fuel) x y bin tmp
  = if bin <=? y
    then tmp' <- store tmp (sub bin x) bin ;;
         fill_loop fuel x y (add bin 1) tmp'
    else Ok tmp.
Proof. reflexivity. Qed.

(** The store of iteration [j] goes to index [j]: a slice of [j + r] cells
    lets the loop run at most [r] more iterations before it ends or
    panics. *)
Lemma fill_loop_fuel x y r : forall j bin tmp,
  sub bin x = Z.of_nat j ->
  length tmp = (j + r)%nat ->
  Z.of_nat (j + r) <= int_max ->
  fill_loop (S r) x y bin tmp <> OutOfFuel.
Proof.
  induction r as [|r IH]; intros j bin tmp Hidx Hlen Hmax;
    rewrite fill_loop_step; destruct (bin <=? y); try discriminate;
    unfold store; rewrite Hidx;
    destruct (Z.ltb_spec (Z.of_nat j) 0); try lia; rewrite Nat2Z.id.
  - rewrite set_nth_ge by lia. discriminate.
  - destruct (set_nth_lt tmp j bin ltac:(lia)) as (tmp' & -> & Hlen').
    cbn [bind]. apply (IH (S j)); try lia.
    rewrite sub_add_1, Hidx, add_small by (apply in_int_nonneg; lia). lia.
Qed.

Lemma level_bins_fuel x y : level_bins x y <> OutOfFuel.
Proof.
  unfold level_bins, make.
  pose proof (wrap_in_int (sub y x + 1)) as [_ Hmax].
  fold (add (sub y x) 1) in Hmax.
  destruct (Z.ltb_spec (add (sub y x) 1) 0); cbn [bind]; [discriminate|].
  rewrite repeat_length.
  apply (fill_loop_fuel x y _ 0).
  - unfold sub. rewrite Z.sub_diag. reflexivity.
  - now rewrite repeat_length.
  - cbn [Nat.add]. lia.
Qed.

Lemma collect_fuel ps : forall bins, collect ps bins <> OutOfFuel.
Proof.
  induction ps as [|[x y] ps IH]; intros bins; cbn [collect]; [discriminate|].
  pose proof (level_bins_fuel x y).
  destruct (level_bins x y); cbn [bind]; first [apply IH|congruence].
Qed.

Lemma first_single_fuel ps : first_single ps <> OutOfFuel.
Proof. unfold first_single. destruct (find _ ps); discriminate. Qed.

(** Whatever the interval, the closure of [ranges] starts the walk. *)
Lemma ranges_closure_at b start stop c :
  ranges b start stop = Ok c -> exists e, c = closure_at b start e 0.
Proof.
  unfold ranges. destruct (out_of_range b start stop); [discriminate|].
  intros [= <-]. eexists. unfold closure_at, shift_at, shr.
  cbn [pred Z.of_nat]. now rewrite Z.mul_0_l, Z.add_0_r.
Qed.

(** No call of a query operation on a scheme whose fields fit their types
    exhausts the fuel of its loops: the results of the model are results of
    the program. *)
Lemma level_fuel_enough b start stop :
  well_typed b ->
  Assign b start stop <> OutOfFuel
  /\ Overlapping b start stop <> OutOfFuel
  /\ Containing b start stop <> OutOfFuel
  /\ Contained b start stop <> OutOfFuel.
Proof.
  intros Hwt.
  assert (HA : Assign b start stop <> OutOfFuel).
  { unfold Assign. destruct (ranges b start stop) as [c| | |] eqn:Hr;
      cbn [bind]; try discriminate.
    - destruct (ranges_closure_at _ _ _ _ Hr) as [e ->].
      unfold level_fuel.
      rewrite (Assign_loop_closure_at b Hwt) by reflexivity.
      apply first_single_fuel.
    - unfold ranges in Hr. destruct (out_of_range b start stop); discriminate. }
  assert (HO : Overlapping b start stop <> OutOfFuel).
  { unfold Overlapping. destruct (ranges b start stop) as [c| | |] eqn:Hr;
      cbn [bind]; try discriminate.
    - destruct (ranges_closure_at _ _ _ _ Hr) as [e ->].
      unfold level_fuel.
      rewrite (Overlapping_loop_closure_at b Hwt) by reflexivity.
      apply collect_fuel.
    - unfold ranges in Hr. destruct (out_of_range b start stop); discriminate. }
  repeat split; try assumption.
  - unfold Containing. destruct (Assign b start stop); cbn [bind];
      try congruence.
    destruct (Overlapping b start stop); cbn [bind]; try congruence.
    rewrite filter_in_place_filter. discriminate.
  - unfold Contained. destruct (Assign b start stop); cbn [bind];
      try congruence.
    destruct (Overlapping b start stop); cbn [bind]; try congruence.
    rewrite filter_in_place_filter. discriminate.
Qed.

(** * Further properties of the query operations *)

(** ** The standard scheme in logical form *)

(** [Assign] returns the bin of the finest level on which the first and
    the last position of the interval share a bin. *)
Lemma Assign_standard_finest start stop :
  start <= int_max ->
  out_of_range standard start stop = false ->
  exists a,
    Assign standard start stop = Ok a
    /\ finest_common start (norm_stop start stop - 1) a.
Proof.
  intros Hs Hacc.
  rewrite (Assign_accepted _ well_typed_standard _ _ Hs Hacc).
  pose proof (norm_stop_bounds _ _ _ Hs Hacc) as [Hse He].
  assert (Hcase : norm_stop start stop - 1 = start
                  \/ norm_stop start stop - 1 < 536870912).
  { apply out_of_range_false in Hacc as [_ Hstop].
    change (add (MaxPosition standard) 1) with 536870912 in Hstop.
    unfold norm_stop. destruct (Z.leb_spec stop start); lia. }
  set (e := norm_stop start stop - 1) in *. clearbody e.
  rewrite standard_level_pairs by lia.
  unfold first_single, finest_common. cbn [find fst snd].
  repeat match goal with
         | |- context [?x =? ?y] => destruct (Z.eqb_spec x y)
         end;
    cbn [fst]; try (eexists; split; [reflexivity|]; lia).
  exfalso. destruct Hcase as [->|Hlt]; [lia|].
  pose proof (shiftr_29_small start ltac:(lia)).
  pose proof (shiftr_29_small e ltac:(lia)). lia.
Qed.

(** The bins of [Overlapping] are those between the bins of the first and
    the last position on some level. *)
Lemma Overlapping_standard_between start stop :
  start <= int_max ->
  out_of_range standard start stop = false ->
  exists ov,
    Overlapping standard start stop = Ok ov
    /\ forall bin,
        In bin ov <-> between_levels start (norm_stop start stop - 1) bin.
Proof.
  intros Hs Hacc. rewrite (Overlapping_standard _ _ Hs Hacc).
  pose proof (norm_stop_bounds _ _ _ Hs Hacc) as [Hse He].
  set (e := norm_stop start stop - 1) in *. clearbody e.
  rewrite standard_level_pairs by lia.
  eexists. split; [reflexivity|]. intros bin.
  cbn [map concat fst snd]. rewrite !in_app_iff, !In_Zrange. cbn [In].
  unfold between_levels. tauto.
Qed.

Lemma in_range_standard start stop :
  in_range standard start stop ->
  start <= int_max
  /\ out_of_range standard start stop = false
  /\ 0 <= start <= norm_stop start stop - 1
  /\ norm_stop start stop - 1 < 536870912.
Proof.
  intros [Hstart Hstop]. cbn [standard MaxPosition] in *.
  assert (Hs : start <= int_max) by (unfold int_max; lia).
  split; [exact Hs|]. split; [apply standard_accepted; cbn; lia|].
  unfold norm_stop. destruct (Z.leb_spec stop start); lia.
Qed.

(** Results of the four operations on an interval within the positions of
    the standard scheme. *)
Lemma standard_query start stop :
  in_range standard start stop ->
  exists a ov,
    Assign standard start stop = Ok a
    /\ Overlapping standard start stop = Ok ov
    /\ Containing standard start stop = Ok (filter (fun bin => bin <=? a) ov)
    /\ Contained standard start stop = Ok (filter (fun bin => bin >=? a) ov)
    /\ finest_common start (norm_stop start stop - 1) a
    /\ forall bin,
        In bin ov <-> between_levels start (norm_stop start stop - 1) bin.
Proof.
  intros Hin. destruct (in_range_standard _ _ Hin) as (Hs & Hacc & _).
  destruct (Assign_standard_finest _ _ Hs Hacc) as (a & HA & Hfin).
  destruct (Overlapping_standard_between _ _ Hs Hacc) as (ov & HO & Hov).
  exists a, ov. split; [exact HA|]. split; [exact HO|].
  split; [unfold Containing; rewrite HA, HO; cbn [bind];
          apply filter_in_place_filter|].
  split; [unfold Contained; rewrite HA, HO; cbn [bind];
          apply filter_in_place_filter|].
  split; assumption.
Qed.

(** Setting for the arithmetic of a query on the standard scheme: the
    normalised stop becomes a variable, the shifts of both end positions get
    their linear bounds. *)
Ltac query_facts start stop :=
  let t := fresh "t" in
  set (t := norm_stop start stop) in *; clearbody t;
  shift_facts start; shift_facts (t - 1).

Ltac split_levels H :=
  cbn [In standard_levels] in H;
  repeat (destruct H as [H|H]; [inversion H; subst; clear H|]);
  [..|destruct H].

Ltac pow2_constants :=
  change (2 ^ 17) with 131072 in *;
  change (2 ^ 20) with 1048576 in *;
  change (2 ^ 23) with 8388608 in *;
  change (2 ^ 26) with 67108864 in *;
  change (2 ^ 29) with 536870912 in *.

(** The interval a valid bin covers, by the level of the bin. *)
Lemma Covered_standard_bin bin :
  0 <= bin <= MaxBin standard ->
  exists offset shift count,
    In (offset, shift, count) standard_levels
    /\ 0 <= bin - offset < count
    /\ Covered standard bin
       = Ok (2 ^ shift * (bin - offset), 2 ^ shift * (bin - offset + 1)).
Proof.
  intros Hbin.
  destruct (standard_bin_level bin Hbin)
    as (offset & shift & count & Hlevel & Hq).
  exists offset, shift, count. split; [exact Hlevel|]. split; [exact Hq|].
  pose proof (Covered_standard_level _ _ _ _ Hlevel Hq) as Hcov.
  now replace (offset + (bin - offset)) with bin in Hcov by lia.
Qed.

(** ** Containing bins *)

(** Within the positions of the standard scheme, a valid bin is among the
    bins of [Containing] exactly when the interval it covers encloses the
    normalised query. *)
Theorem Containing_iff_encloses start stop bin :
  in_range standard start stop ->
  0 <= bin <= MaxBin standard ->
  exists cs c0 c1,
    Containing standard start stop = Ok cs
    /\ Covered standard bin = Ok (c0, c1)
    /\ (In bin cs <-> encloses c0 c1 start (Z.max stop (start + 1))).
Proof.
  intros Hin Hbin.
  destruct (standard_query _ _ Hin) as (a & ov & _ & _ & HC & _ & Hfin & Hov).
  destruct (in_range_standard _ _ Hin) as (_ & _ & Hse & He).
  destruct (Covered_standard_bin bin Hbin)
    as (offset & shift & count & Hlevel & Hq & Hcov).
  eexists _, _, _. split; [exact HC|]. split; [exact Hcov|].
  rewrite filter_In, Hov, Z.leb_le, <- norm_stop_max.
  unfold encloses, finest_common, between_levels in *.
  query_facts start stop.
  split_levels Hlevel; pow2_constants; lia.
Qed.

Lemma Containing_iff_encloses_witness :
  exists cs c0 c1,
    Containing standard 1200000 2000000 = Ok cs
    /\ Covered standard 9 = Ok (c0, c1)
    /\ (In 9 cs <-> encloses c0 c1 1200000 (Z.max 2000000 (1200000 + 1))).
Proof.
  apply (Containing_iff_encloses 1200000 2000000 9);
    unfold in_range; cbn [standard MaxPosition MaxBin]; lia.
Defined.

(** ** The bin of [Assign] *)

Lemma finest_common_valid s e a :
  0 <= s <= e -> e < 536870912 -> finest_common s e a ->
  0 <= a <= MaxBin standard.
Proof.
  intros Hse He Hfin. cbn [standard MaxBin]. unfold finest_common in Hfin.
  shift_facts s. shift_facts e. lia.
Qed.

(** Within the positions of the standard scheme the interval covered by the
    bin of [Assign] encloses the normalised query and lies inside the
    interval of every valid bin that encloses the query: [Assign] returns
    the smallest bin fitting the interval. *)
Theorem Assign_smallest_enclosing start stop bin :
  in_range standard start stop ->
  0 <= bin <= MaxBin standard ->
  exists a d0 d1 c0 c1,
    Assign standard start stop = Ok a
    /\ Covered standard a = Ok (d0, d1)
    /\ Covered standard bin = Ok (c0, c1)
    /\ encloses d0 d1 start (Z.max stop (start + 1))
    /\ (encloses c0 c1 start (Z.max stop (start + 1)) ->
        encloses c0 c1 d0 d1).
Proof.
  intros Hin Hbin.
  destruct (standard_query _ _ Hin) as (a & ov & HA & _ & _ & _ & Hfin & _).
  destruct (in_range_standard _ _ Hin) as (_ & _ & Hse & He).
  pose proof (finest_common_valid _ _ _ Hse He Hfin) as Ha.
  destruct (Covered_standard_bin a Ha)
    as (offset' & shift' & count' & Hlevel' & Hq' & Hcov').
  destruct (Covered_standard_bin bin Hbin)
    as (offset & shift & count & Hlevel & Hq & Hcov).
  eexists a, _, _, _, _. split; [exact HA|]. split; [exact Hcov'|].
  split; [exact Hcov|].
  rewrite <- norm_stop_max. unfold encloses, finest_common in *.
  clear HA Hcov Hcov' Hin. cbn [standard MaxBin] in *.
  query_facts start stop.
  split_levels Hlevel'; split_levels Hlevel; pow2_constants; lia.
Qed.

Lemma Assign_smallest_enclosing_witness :
  exists a d0 d1 c0 c1,
    Assign standard 1200000 2000000 = Ok a
    /\ Covered standard a = Ok (d0, d1)
    /\ Covered standard 9 = Ok (c0, c1)
    /\ encloses d0 d1 1200000 (Z.max 2000000 (1200000 + 1))
    /\ (encloses c0 c1 1200000 (Z.max 2000000 (1200000 + 1)) ->
        encloses c0 c1 d0 d1).
Proof.
  apply (Assign_smallest_enclosing 1200000 2000000 9);
    unfold in_range; cbn [standard MaxPosition MaxBin]; lia.
Defined.

(** For an accepted interval [Assign] returns a bin that [Covered] takes
    exactly when the interval starts at most at [MaxPosition]. *)
Theorem Assign_valid_iff start stop :
  in_int start ->
  0 <= start -> stop <= MaxPosition standard + 1 ->
  exists a,
    Assign standard start stop = Ok a
    /\ 0 <= a
    /\ (a <= MaxBin standard <-> start <= MaxPosition standard).
Proof.
  intros [_ Hs] H0 Hstop.
  pose proof (standard_accepted _ _ H0 Hstop) as Hacc.
  destruct (Assign_standard_finest _ _ Hs Hacc) as (a & HA & Hfin).
  exists a. split; [exact HA|]. cbn [standard MaxPosition MaxBin] in *.
  unfold finest_common in Hfin.
  destruct (Z.le_gt_cases start 536870911) as [Hle|Hgt].
  - assert (Hse : 0 <= start <= norm_stop start stop - 1
                  /\ norm_stop start stop - 1 < 536870912).
    { unfold norm_stop. destruct (Z.leb_spec stop start); lia. }
    query_facts start stop. lia.
  - assert (Hn : norm_stop start stop - 1 = start).
    { unfold norm_stop. destruct (Z.leb_spec stop start); lia. }
    rewrite Hn in Hfin. shift_facts start. lia.
Qed.

Lemma Assign_valid_iff_witness :
  exists a,
    Assign standard 536870912 0 = Ok a
    /\ 0 <= a
    /\ (a <= MaxBin standard <-> 536870912 <= MaxPosition standard).
Proof.
  apply (Assign_valid_iff 536870912 0);
    unfold in_int, int_min, int_max; cbn [standard MaxPosition]; lia.
Defined.

(** ** The intervals of the bins *)

(** Every valid bin of the standard scheme covers a non-empty interval
    within the positions of the scheme whose length is [2^(17 + 3k)] for a
    level [k] from 0 to 4 and whose start is a multiple of that length. *)
Theorem Covered_standard_aligned bin :
  0 <= bin <= MaxBin standard ->
  exists c0 c1 k,
    Covered standard bin = Ok (c0, c1)
    /\ 0 <= k <= 4
    /\ c1 - c0 = 2 ^ (17 + 3 * k)
    /\ (2 ^ (17 + 3 * k) | c0)
    /\ 0 <= c0 /\ c1 <= MaxPosition standard + 1.
Proof.
  intros Hbin.
  destruct (Covered_standard_bin bin Hbin)
    as (offset & shift & count & Hlevel & Hq & Hcov).
  exists (2 ^ shift * (bin - offset)), (2 ^ shift * (bin - offset + 1)).
  exists ((shift - 17) / 3). split; [exact Hcov|].
  cbn [standard MaxPosition].
  split_levels Hlevel;
    match goal with
    | |- context [(?n - 17) / 3] =>
        let v := eval vm_compute in ((n - 17) / 3) in
        change ((n - 17) / 3) with v
    end; cbn [Z.mul Z.add Pos.mul Pos.add Pos.succ];
    (split; [lia|]); (split; [lia|]);
    (split; [apply Z.divide_factor_l|]);
    pow2_constants; lia.
Qed.

Lemma Covered_standard_aligned_witness :
  exists c0 c1 k,
    Covered standard 74 = Ok (c0, c1)
    /\ 0 <= k <= 4
    /\ c1 - c0 = 2 ^ (17 + 3 * k)
    /\ (2 ^ (17 + 3 * k) | c0)
    /\ 0 <= c0 /\ c1 <= MaxPosition standard + 1.
Proof.
  apply (Covered_standard_aligned 74). cbn [standard MaxBin]. lia.
Defined.

(** The intervals of two valid bins of the standard scheme are disjoint or
    one lies inside the other. *)
Theorem Covered_standard_nested bin bin' :
  0 <= bin <= MaxBin standard ->
  0 <= bin' <= MaxBin standard ->
  exists c0 c1 d0 d1,
    Covered standard bin = Ok (c0, c1)
    /\ Covered standard bin' = Ok (d0, d1)
    /\ (shares_position c0 c1 d0 d1 ->
        encloses c0 c1 d0 d1 \/ encloses d0 d1 c0 c1).
Proof.
  intros Hbin Hbin'.
  destruct (Covered_standard_bin bin Hbin)
    as (offset & shift & count & Hlevel & Hq & Hcov).
  destruct (Covered_standard_bin bin' Hbin')
    as (offset' & shift' & count' & Hlevel' & Hq' & Hcov').
  eexists _, _, _, _. split; [exact Hcov|]. split; [exact Hcov'|].
  unfold shares_position, encloses. intros (p & Hp & Hp').
  clear Hcov Hcov'.
  split_levels Hlevel; split_levels Hlevel'; pow2_constants; lia.
Qed.

Lemma Covered_standard_nested_witness :
  exists c0 c1 d0 d1,
    Covered standard 74 = Ok (c0, c1)
    /\ Covered standard 600 = Ok (d0, d1)
    /\ (shares_position c0 c1 d0 d1 ->
        encloses c0 c1 d0 d1 \/ encloses d0 d1 c0 c1).
Proof.
  apply (Covered_standard_nested 74 600); cbn [standard MaxBin]; lia.
Defined.

(** ** Queries find the stored intervals *)

(** An interval stored under its [Assign] bin is found by [Overlapping]
    whenever it has a position in common with the query. *)
Theorem Overlapping_finds_overlapping start stop start' stop' :
  in_range standard start stop ->
  in_range standard start' stop' ->
  shares_position start' (Z.max stop' (start' + 1))
    start (Z.max stop (start + 1)) ->
  exists a' ov,
    Assign standard start' stop' = Ok a'
    /\ Overlapping standard start stop = Ok ov
    /\ In a' ov.
Proof.
  intros Hq Hs (p & Hp' & Hp).
  destruct (standard_query _ _ Hq) as (a & ov & _ & HO & _ & _ & _ & Hov).
  destruct (standard_query _ _ Hs) as (a' & ov' & HA' & _ & _ & _ & Hfin' & _).
  destruct (in_range_standard _ _ Hq) as (_ & _ & Hse & He).
  destruct (in_range_standard _ _ Hs) as (_ & _ & Hse' & He').
  exists a', ov. split; [exact HA'|]. split; [exact HO|].
  apply Hov. rewrite <- !norm_stop_max in *.
  unfold finest_common, between_levels in *. clear Hov HO HA' Hq Hs.
  query_facts start stop. query_facts start' stop'.
  destruct Hfin' as [Hlv'|[Hlv'|[Hlv'|[Hlv'|Hlv']]]]; lia.
Qed.

Lemma Overlapping_finds_overlapping_witness :
  exists a' ov,
    Assign standard 1900000 2100000 = Ok a'
    /\ Overlapping standard 1200000 2000000 = Ok ov
    /\ In a' ov.
Proof.
  apply (Overlapping_finds_overlapping 1200000 2000000 1900000 2100000).
  - unfold in_range. cbn [standard MaxPosition]. lia.
  - unfold in_range. cbn [standard MaxPosition]. lia.
  - exists 1950000. lia.
Defined.

(** An interval stored under its [Assign] bin is found by [Containing]
    whenever it encloses the query. *)
Theorem Containing_finds_enclosing start stop start' stop' :
  in_range standard start stop ->
  in_range standard start' stop' ->
  encloses start' (Z.max stop' (start' + 1)) start (Z.max stop (start + 1)) ->
  exists a' cs,
    Assign standard start' stop' = Ok a'
    /\ Containing standard start stop = Ok cs
    /\ In a' cs.
Proof.
  intros Hq Hs [Hlo Hhi].
  destruct (standard_query _ _ Hq) as (a & ov & _ & _ & HC & _ & Hfin & Hov).
  destruct (standard_query _ _ Hs) as (a' & ov' & HA' & _ & _ & _ & Hfin' & _).
  destruct (in_range_standard _ _ Hq) as (_ & _ & Hse & He).
  destruct (in_range_standard _ _ Hs) as (_ & _ & Hse' & He').
  exists a'. eexists. split; [exact HA'|]. split; [exact HC|].
  rewrite filter_In, Hov, Z.leb_le. rewrite <- !norm_stop_max in *.
  unfold finest_common, between_levels in *. clear Hov HC HA' Hq Hs.
  query_facts start stop. query_facts start' stop'.
  destruct Hfin as [Hlv|[Hlv|[Hlv|[Hlv|Hlv]]]];
    destruct Hfin' as [Hlv'|[Hlv'|[Hlv'|[Hlv'|Hlv']]]]; lia.
Qed.

Lemma Containing_finds_enclosing_witness :
  exists a' cs,
    Assign standard 1000000 3000000 = Ok a'
    /\ Containing standard 1200000 2000000 = Ok cs
    /\ In a' cs.
Proof.
  apply (Containing_finds_enclosing 1200000 2000000 1000000 3000000);
    unfold in_range, encloses; cbn [standard MaxPosition]; lia.
Defined.

(** An interval stored under its [Assign] bin is found by [Contained]
    whenever the query encloses it. *)
Theorem Contained_finds_enclosed start stop start' stop' :
  in_range standard start stop ->
  in_range standard start' stop' ->
  encloses start (Z.max stop (start + 1)) start' (Z.max stop' (start' + 1)) ->
  exists a' cd,
    Assign standard start' stop' = Ok a'
    /\ Contained standard start stop = Ok cd
    /\ In a' cd.
Proof.
  intros Hq Hs [Hlo Hhi].
  destruct (standard_query _ _ Hq) as (a & ov & _ & _ & _ & HD & Hfin & Hov).
  destruct (standard_query _ _ Hs) as (a' & ov' & HA' & _ & _ & _ & Hfin' & _).
  destruct (in_range_standard _ _ Hq) as (_ & _ & Hse & He).
  destruct (in_range_standard _ _ Hs) as (_ & _ & Hse' & He').
  exists a'. eexists. split; [exact HA'|]. split; [exact HD|].
  rewrite filter_In, Hov, Z.geb_le. rewrite <- !norm_stop_max in *.
  unfold finest_common, between_levels in *. clear Hov HD HA' Hq Hs.
  query_facts start stop. query_facts start' stop'.
  destruct Hfin as [Hlv|[Hlv|[Hlv|[Hlv|Hlv]]]];
    destruct Hfin' as [Hlv'|[Hlv'|[Hlv'|[Hlv'|Hlv']]]]; lia.
Qed.

Lemma Contained_finds_enclosed_witness :
  exists a' cd,
    Assign standard 1300000 1400000 = Ok a'
    /\ Contained standard 1200000 2000000 = Ok cd
    /\ In a' cd.
Proof.
  apply (Contained_finds_enclosed 1200000 2000000 1300000 1400000);
    unfold in_range, encloses; cbn [standard MaxPosition]; lia.
Defined.

(** ** Any scheme *)

(** An empty or inverted interval is answered as the one-position interval
    at its start, provided that position is within the scheme. *)
Theorem empty_interval_as_one_position b start stop :
  in_int start ->
  0 <= start -> stop <= start ->
  start + 1 <= add (MaxPosition b) 1 ->
  Assign b start stop = Assign b start (start + 1)
  /\ Overlapping b start stop = Overlapping b start (start + 1)
  /\ Containing b start stop = Containing b start (start + 1)
  /\ Contained b start stop = Contained b start (start + 1).
Proof.
  intros [_ Hs] H0 Hle Hmax.
  assert (Hranges : ranges b start stop = ranges b start (start + 1)).
  { unfold ranges.
    rewrite (proj2 (out_of_range_false b start stop)) by lia.
    rewrite (proj2 (out_of_range_false b start (start + 1))) by lia.
    apply Z.leb_le in Hle. rewrite Hle.
    destruct (Z.leb_spec (start + 1) start); [lia|].
    pose proof (wrap_in_int (MaxPosition b + 1)) as [_ Hw].
    fold (add (MaxPosition b) 1) in Hw.
    now rewrite add_small by (apply in_int_nonneg; lia). }
  assert (HA : Assign b start stop = Assign b start (start + 1))
    by (unfold Assign; now rewrite Hranges).
  assert (HO : Overlapping b start stop = Overlapping b start (start + 1))
    by (unfold Overlapping; now rewrite Hranges).
  unfold Containing, Contained. now rewrite HA, HO.
Qed.

Lemma empty_interval_as_one_position_witness :
  Assign standard 7 3 = Assign standard 7 (7 + 1)
  /\ Overlapping standard 7 3 = Overlapping standard 7 (7 + 1)
  /\ Containing standard 7 3 = Containing standard 7 (7 + 1)
  /\ Contained standard 7 3 = Contained standard 7 (7 + 1).
Proof.
  apply (empty_interval_as_one_position standard 7 3);
    unfold in_int, int_min, int_max; try lia.
  change (add (MaxPosition standard) 1) with 536870912. lia.
Defined.

Lemma level_bins_single x tmp : level_bins x x = Ok tmp -> tmp = [x].
Proof.
  unfold level_bins, make, sub. rewrite Z.sub_diag.
  change (add (wrap 0) 1 <? 0) with false.
  change (Z.to_nat (add (wrap 0) 1)) with 1%nat.
  cbn [repeat bind length]. rewrite fill_loop_step, Z.leb_refl.
  fold (sub x x). unfold sub at 1. rewrite Z.sub_diag.
  change (store [0] (wrap 0) x) with (Ok [x]). cbn [bind].
  rewrite fill_loop_step. destruct (add x 1 <=? x); [|congruence].
  rewrite sub_add_1. unfold sub. rewrite Z.sub_diag.
  change (store [x] (add (wrap 0) 1) (add x 1))
    with (@Panic (list Z) IndexOutOfRange).
  discriminate.
Qed.

Lemma collect_prefix ps : forall bins ov,
  collect ps bins = Ok ov -> exists rest, ov = bins ++ rest.
Proof.
  induction ps as [|[x y] ps IH]; intros bins ov; cbn [collect].
  - intros [= <-]. exists []. now rewrite app_nil_r.
  - destruct (level_bins x y) as [tmp| | |]; cbn [bind]; try discriminate.
    intros Hov. destruct (IH _ _ Hov) as [rest ->].
    exists (tmp ++ rest). now rewrite app_assoc.
Qed.

Lemma first_single_in_collect ps : forall bins a ov,
  first_single ps = Ok a -> collect ps bins = Ok ov -> In a ov.
Proof.
  unfold first_single.
  induction ps as [|[x y] ps IH]; intros bins a ov; cbn [find collect fst snd].
  - discriminate.
  - destruct (Z.eqb_spec x y) as [->|Hne].
    + intros [= <-].
      destruct (level_bins y y) as [tmp| | |] eqn:Htmp; cbn [bind];
        try discriminate.
      apply level_bins_single in Htmp. subst tmp. intros Hov.
      destruct (collect_prefix _ _ _ Hov) as [rest ->].
      apply in_or_app. left. apply in_or_app. right. now left.
    + destruct (level_bins x y); cbn [bind]; try discriminate. apply IH.
Qed.

(** On every scheme, when [Assign] and [Overlapping] return, the bin of
    [Assign] is one of the bins of [Overlapping]; [Containing] and
    [Contained] are the bins of [Overlapping] at most, respectively at
    least, that bin, and both hold it. *)
Theorem Assign_among_Overlapping b start stop a ov :
  well_typed b ->
  Assign b start stop = Ok a ->
  Overlapping b start stop = Ok ov ->
  In a ov
  /\ Containing b start stop = Ok (filter (fun bin => bin <=? a) ov)
  /\ Contained b start stop = Ok (filter (fun bin => bin >=? a) ov)
  /\ In a (filter (fun bin => bin <=? a) ov)
  /\ In a (filter (fun bin => bin >=? a) ov).
Proof.
  intros Hwt HA HO.
  assert (Hin : In a ov).
  { unfold Assign, Overlapping in *.
    destruct (ranges b start stop) as [c| | |] eqn:Hr; cbn [bind] in *;
      try discriminate.
    destruct (ranges_closure_at _ _ _ _ Hr) as [e ->].
    unfold level_fuel in *.
    rewrite (Assign_loop_closure_at b Hwt) in HA by reflexivity.
    rewrite (Overlapping_loop_closure_at b Hwt) in HO by reflexivity.
    eapply first_single_in_collect; eassumption. }
  split; [exact Hin|].
  split; [unfold Containing; rewrite HA, HO; cbn [bind];
          apply filter_in_place_filter|].
  split; [unfold Contained; rewrite HA, HO; cbn [bind];
          apply filter_in_place_filter|].
  split; apply filter_In; (split; [exact Hin|]).
  - apply Z.leb_refl.
  - apply Z.geb_le. lia.
Qed.

Lemma Assign_among_Overlapping_witness :
  In 12 [12; 1]
  /\ Containing (mkBinning 7 13 [10; 0] 1 1) 4 5
     = Ok (filter (fun bin => bin <=? 12) [12; 1])
  /\ Contained (mkBinning 7 13 [10; 0] 1 1) 4 5
     = Ok (filter (fun bin => bin >=? 12) [12; 1])
  /\ In 12 (filter (fun bin => bin <=? 12) [12; 1])
  /\ In 12 (filter (fun bin => bin >=? 12) [12; 1]).
Proof.
  apply (Assign_among_Overlapping (mkBinning 7 13 [10; 0] 1 1) 4 5 12 [12; 1]).
  - constructor; cbn; unfold in_int, int_min, int_max; try lia.
    repeat constructor; lia.
  - reflexivity.
  - reflexivity.
Defined.

(** ** Construction *)

(** [NewBinning] panics on an empty list of offsets; on the other
    parameters it returns a scheme whose [MaxBin] is the bin [Assign] gives
    to the last position, [maxPosition]. *)
Theorem NewBinning_MaxBin maxPosition offsets sf sn :
  (offsets = [] ->
   NewBinning maxPosition offsets sf sn = Panic IndexOutOfRange)
  /\ (offsets <> [] ->
      Forall in_int offsets -> len offsets <= int_max ->
      0 <= sf < 2 ^ 64 -> 0 <= sn < 2 ^ 64 ->
      0 <= maxPosition < int_max ->
      exists b,
        NewBinning maxPosition offsets sf sn = Ok b
        /\ MaxPosition b = maxPosition
        /\ binOffsets b = offsets
        /\ Assign b maxPosition (maxPosition + 1) = Ok (MaxBin b)).
Proof.
  split; [intros ->; reflexivity|].
  intros Hne Hoffs Hlen Hsf Hsn Hmax.
  destruct offsets as [|first rest]; [congruence|].
  unfold NewBinning. change (index (first :: rest) 0) with (Ok first).
  cbn [bind]. eexists. split; [reflexivity|].
  split; [reflexivity|]. split; [reflexivity|].
  match goal with |- Assign ?b _ _ = _ => set (scheme := b) end.
  assert (Hwt : well_typed scheme).
  { constructor; cbn [scheme MaxPosition MaxBin binOffsets shiftFirst
                      shiftNext]; try assumption.
    - unfold in_int, int_min, int_max in *. lia.
    - apply wrap_in_int. }
  assert (Hacc : out_of_range scheme maxPosition (maxPosition + 1) = false).
  { apply out_of_range_false. cbn [scheme MaxPosition].
    rewrite add_small by (apply in_int_nonneg; lia). lia. }
  rewrite (Assign_accepted _ Hwt _ _ (Z.lt_le_incl _ _ (proj2 Hmax)) Hacc).
  unfold norm_stop. destruct (Z.leb_spec (maxPosition + 1) maxPosition); [lia|].
  replace (maxPosition + 1 - 1) with maxPosition by lia.
  unfold level_pairs, first_single, level_pair, shift_at, shr.
  cbn [scheme MaxBin binOffsets shiftFirst shiftNext length seq map find
       fst snd nth Z.of_nat].
  now rewrite Z.eqb_refl, Z.mul_0_l, Z.add_0_r.
Qed.

Lemma NewBinning_MaxBin_witness :
  exists b,
    NewBinning 7 [10; 0] 1 1 = Ok b
    /\ MaxPosition b = 7
    /\ binOffsets b = [10; 0]
    /\ Assign b 7 (7 + 1) = Ok (MaxBin b).
Proof.
  apply (proj2 (NewBinning_MaxBin 7 [10; 0] 1 1));
    unfold in_int, int_min, int_max, len; cbn [length Z.of_nat];
    try lia; try discriminate.
  repeat constructor; lia.
Defined.

(** ** The bins of [Overlapping], standard scheme *)

(** For every accepted interval the result of [Overlapping] is, level by
    level in the order the closure yields the pairs, the ascending run of
    bins from the first to the last bin of the pair, every level giving at
    least one bin. *)
Theorem Overlapping_level_by_level start stop :
  in_int start ->
  0 <= start -> stop <= MaxPosition standard + 1 ->
  exists c ps ov,
    ranges standard start stop = Ok c
    /\ drain (level_fuel standard) standard c = Ok ps
    /\ Overlapping standard start stop = Ok ov
    /\ ov = concat (map (fun p => Zrange (fst p) (snd p)) ps)
    /\ Forall (fun p => fst p <= snd p) ps.
Proof.
  intros [_ Hs] H0 Hstop.
  pose proof (standard_accepted _ _ H0 Hstop) as Hacc.
  pose proof (norm_stop_bounds _ _ _ Hs Hacc) as [Hse He].
  exists (closure_at standard start (norm_stop start stop - 1) 0).
  exists (level_pairs standard start (norm_stop start stop - 1)).
  eexists.
  split; [apply ranges_accepted; assumption|].
  split; [apply (drain_closure_at _ well_typed_standard); reflexivity|].
  split; [apply Overlapping_standard; assumption|].
  split; [reflexivity|].
  eapply Forall_impl; [|apply standard_pairs_good; [exact Hse|exact He]].
  intros p [Hp _]. lia.
Qed.

Lemma Overlapping_level_by_level_witness :
  exists c ps ov,
    ranges standard 1200000 2000000 = Ok c
    /\ drain (level_fuel standard) standard c = Ok ps
    /\ Overlapping standard 1200000 2000000 = Ok ov
    /\ ov = concat (map (fun p => Zrange (fst p) (snd p)) ps)
    /\ Forall (fun p => fst p <= snd p) ps.
Proof.
  apply (Overlapping_level_by_level 1200000 2000000);
    unfold in_int, int_min, int_max; cbn [standard MaxPosition]; lia.
Defined.

Lemma NoDup_Zrange x y : NoDup (Zrange x y).
Proof.
  unfold Zrange. apply NoDup_map_NoDup_ForallPairs; [|apply seq_NoDup].
  intros i j _ _ Hij. lia.
Qed.

(** Within the positions of the standard scheme [Overlapping] returns
    valid bins only, none of them twice, the root bin 0 last. *)
Theorem Overlapping_valid_distinct start stop :
  in_range standard start stop ->
  exists ov,
    Overlapping standard start stop = Ok ov
    /\ (forall bin, In bin ov -> 0 <= bin <= MaxBin standard)
    /\ NoDup ov
    /\ last ov 1 = 0.
Proof.
  intros Hin. destruct (in_range_standard _ _ Hin) as (Hs & Hacc & Hse & He).
  rewrite (Overlapping_standard _ _ Hs Hacc).
  set (e := norm_stop start stop - 1) in *. clearbody e.
  rewrite standard_level_pairs by (unfold int_max; lia).
  eexists. split; [reflexivity|]. cbn [map concat fst snd standard MaxBin].
  rewrite app_nil_r.
  rewrite (shiftr_29_small start), (shiftr_29_small e) by lia.
  change (Zrange (0 + 0) (0 + 0)) with [0].
  shift_facts start. shift_facts e.
  split; [|split].
  - intros bin. rewrite !in_app_iff, !In_Zrange. cbn [In]. lia.
  - repeat (apply NoDup_app; [apply NoDup_Zrange| |
             intros a; rewrite ?in_app_iff, !In_Zrange; cbn [In]; lia]).
    repeat constructor. cbn [In]. tauto.
  - rewrite !app_assoc. apply last_last.
Qed.

Lemma Overlapping_valid_distinct_witness :
  exists ov,
    Overlapping standard 1200000 2000000 = Ok ov
    /\ (forall bin, In bin ov -> 0 <= bin <= MaxBin standard)
    /\ NoDup ov
    /\ last ov 1 = 0.
Proof.
  apply (Overlapping_valid_distinct 1200000 2000000).
  unfold in_range. cbn [standard MaxPosition]. lia.
Defined.

(** ** Termination *)

Lemma level_fuel_enough_witness :
  Assign standard 1200000 2000000 <> OutOfFuel
  /\ Overlapping standard 1200000 2000000 <> OutOfFuel
  /\ Containing standard 1200000 2000000 <> OutOfFuel
  /\ Contained standard 1200000 2000000 <> OutOfFuel.
Proof.
  apply (level_fuel_enough standard 1200000 2000000), well_typed_standard.
Defined.

(** ** Contained bins and the round trip from [Assign] *)

(** Within the positions of the standard scheme, a valid bin is among the
    bins of [Contained] exactly when the interval it covers has a position
    in common with the normalised query and is no longer than the interval
    of the bin of [Assign]. *)
Theorem Contained_iff_overlaps_finer start stop bin :
  in_range standard start stop ->
  0 <= bin <= MaxBin standard ->
  exists a cd d0 d1 c0 c1,
    Assign standard start stop = Ok a
    /\ Contained standard start stop = Ok cd
    /\ Covered standard a = Ok (d0, d1)
    /\ Covered standard bin = Ok (c0, c1)
    /\ (In bin cd
        <-> shares_position c0 c1 start (Z.max stop (start + 1))
            /\ c1 - c0 <= d1 - d0).
Proof.
  intros Hin Hbin.
  destruct (standard_query _ _ Hin) as (a & ov & HA & _ & _ & HD & Hfin & Hov).
  destruct (in_range_standard _ _ Hin) as (_ & _ & Hse & He).
  pose proof (finest_common_valid _ _ _ Hse He Hfin) as Ha.
  destruct (Covered_standard_bin a Ha)
    as (offset' & shift' & count' & Hlevel' & Hq' & Hcov').
  destruct (Covered_standard_bin bin Hbin)
    as (offset & shift & count & Hlevel & Hq & Hcov).
  eexists a, _, _, _, _, _. split; [exact HA|]. split; [exact HD|].
  split; [exact Hcov'|]. split; [exact Hcov|].
  rewrite filter_In, Hov, Z.geb_le, <- norm_stop_max.
  unfold shares_position, finest_common, between_levels in *.
  clear HA HD Hov Hcov Hcov' Hin. cbn [standard MaxBin] in *.
  query_facts start stop.
  split_levels Hlevel'; split_levels Hlevel; pow2_constants;
    (split;
     [ intros Hmem; split;
       [ match goal with
         | |- exists p, ?c0 <= p < _ /\ _ => exists (Z.max start c0)
         end; lia
       | lia ]
     | intros [(p & Hp0 & Hp1) Hlen]; lia ]).
Qed.

Lemma Contained_iff_overlaps_finer_witness :
  exists a cd d0 d1 c0 c1,
    Assign standard 1200000 2000000 = Ok a
    /\ Contained standard 1200000 2000000 = Ok cd
    /\ Covered standard a = Ok (d0, d1)
    /\ Covered standard 600 = Ok (c0, c1)
    /\ (In 600 cd
        <-> shares_position c0 c1 1200000 (Z.max 2000000 (1200000 + 1))
            /\ c1 - c0 <= d1 - d0).
Proof.
  apply (Contained_iff_overlaps_finer 1200000 2000000 600);
    unfold in_range; cbn [standard MaxPosition MaxBin]; lia.
Defined.

(** Within the positions of the standard scheme, assigning the interval
    covered by the bin of [Assign] gives that bin again. *)
Theorem Assign_Covered_Assign start stop :
  in_range standard start stop ->
  exists a c0 c1,
    Assign standard start stop = Ok a
    /\ Covered standard a = Ok (c0, c1)
    /\ Assign standard c0 c1 = Ok a.
Proof.
  intros Hin.
  destruct (standard_query _ _ Hin) as (a & ov & HA & _ & _ & _ & Hfin & _).
  destruct (in_range_standard _ _ Hin) as (_ & _ & Hse & He).
  pose proof (finest_common_valid _ _ _ Hse He Hfin) as Ha.
  pose proof round_trip_all_bins as Hall. rewrite forallb_forall in Hall.
  specialize (Hall a (proj2 (In_Zrange _ _ _) Ha)). unfold round_trip in Hall.
  destruct (Covered standard a) as [[c0 c1]| | |] eqn:Hcov; try discriminate.
  exists a, c0, c1. split; [exact HA|]. split; [exact Hcov|].
  destruct (Assign standard c0 c1) as [a'| | |]; try discriminate.
  apply Z.eqb_eq in Hall. now subst.
Qed.

Lemma Assign_Covered_Assign_witness :
  exists a c0 c1,
    Assign standard 1200000 2000000 = Ok a
    /\ Covered standard a = Ok (c0, c1)
    /\ Assign standard c0 c1 = Ok a.
Proof.
  apply (Assign_Covered_Assign 1200000 2000000).
  unfold in_range. cbn [standard MaxPosition]. lia.
Defined.

Lemma Overlapping_iff_shares_position_witness :
  exists ov c0 c1,
    Overlapping standard 1200000 2000000 = Ok ov
    /\ Covered standard 600 = Ok (c0, c1)
    /\ (In 600 ov
        <-> shares_position c0 c1 1200000 (Z.max 2000000 (1200000 + 1))).
Proof.
  apply (Overlapping_iff_shares_position 1200000 2000000 600);
    cbn [standard MaxPosition MaxBin]; lia.
Defined.
